(** * ha-swipe-pad: the touch pad's gesture recogniser

    A shallow embedding of [src/ha-touch-pad.ts] (class [TouchPad]) and the
    properties of its press / move / release handlers.

    Numbers.  Pointer coordinates, thresholds and pixel offsets are JavaScript
    numbers; they are modelled as rationals ([Q]), and a field that has not
    been assigned yet ([undefined], which arithmetic turns into [NaN]) as
    [None].  Rounding of doubles and the infinities are outside the model.
    [Date.now()] and timer delays are whole milliseconds ([Z]).

    Effects.  The component's fields and the style of its cursor element form
    the record [TouchPad]; the host page around it (clock, pending
    [setTimeout] entries, registered listeners, dispatched events) forms the
    record [World].  Handlers are functions [World -> World]. *)

From Stdlib Require Import ZArith QArith Qabs Qminmax List String Bool Lia Lqa.
Import ListNotations.

Open Scope Z_scope.

(** ** JavaScript numbers *)

Module JS.

(** A finite number, or [None] for [NaN] (what [undefined] becomes in
    arithmetic). *)
Definition number := option Q.

Definition Qltb (x y : Q) : bool := negb (Qle_bool y x).

Definition sub (a b : number) : number :=
  match a, b with
  | Some x, Some y => Some (x - y)%Q
  | _, _ => None
  end.

Definition neg (a : number) : number := option_map Qopp a.

(** [Math.abs] *)
Definition abs (a : number) : number := option_map Qabs a.

(** [Math.min] and [Math.max]: [NaN] as soon as one argument is. *)
Definition min (a b : number) : number :=
  match a, b with
  | Some x, Some y => Some (Qmin x y)
  | _, _ => None
  end.

Definition max (a b : number) : number :=
  match a, b with
  | Some x, Some y => Some (Qmax x y)
  | _, _ => None
  end.

(** [a < b] and [a > b]: false as soon as one side is [NaN]. *)
Definition lt (a b : number) : bool :=
  match a, b with
  | Some x, Some y => Qltb x y
  | _, _ => false
  end.

Definition gt (a b : number) : bool := lt b a.

(** [!v] for a boolean field that may still be [undefined]. *)
Definition not (v : option bool) : bool :=
  match v with
  | Some true => false
  | _ => true
  end.

End JS.

(** ** Gestures and configuration *)

(** The six names [_fireEvent] is called with. *)
Inductive Gesture := tap | double_tap | up | down | left | right.

(** The pad's box and its cursor's box, as [offsetWidth] / [offsetHeight]
    report them (whole pixels). *)
Record Layout := {
  offsetWidth : Z;
  offsetHeight : Z;
  circle_offsetWidth : Z;
  circle_offsetHeight : Z
}.

(** A touch or mouse event: [isTouch] is [event instanceof TouchEvent];
    the coordinates are those of [changedTouches[0]] for a touch event and
    of the event itself for a mouse event. *)
Record PointerEvent := {
  isTouch : bool;
  clientX : Q;
  clientY : Q
}.

(** Inline style of the cursor element. [left] and [top] are either the
    literal ['50%'] or [calc(50% + <n>px)]. *)
Inductive Inset :=
| InsetInitial
| InsetCenter
| InsetCalc (px : JS.number).

Inductive Transition :=
| TransitionInitial
| TransitionNone            (* 'none' *)
| TransitionReturn.         (* 'top 0.5s, left 0.5s' *)

Record Style := {
  transition : Transition;
  style_left : Inset;
  style_top : Inset
}.

Section TouchPad.

(** The action descriptors come from [./types], which is not part of the
    sources at hand: they are opaque objects here, handed on as they are. *)
Context {ActionConfig : Type}.

(** The part of [InternalConfig] the handlers read: one optional action
    per gesture ([<gesture>_action]) and the three thresholds. *)
Record InternalConfig := {
  tap_action : option ActionConfig;
  double_tap_action : option ActionConfig;
  up_action : option ActionConfig;
  down_action : option ActionConfig;
  left_action : option ActionConfig;
  right_action : option ActionConfig;
  swipe_threshold : Q;
  tap_threshold : Q;
  tap_timeout : Z
}.

(** What the card's user writes: every entry optional. *)
Record HaTouchPadConfig := {
  user_tap_action : option ActionConfig;
  user_double_tap_action : option ActionConfig;
  user_up_action : option ActionConfig;
  user_down_action : option ActionConfig;
  user_left_action : option ActionConfig;
  user_right_action : option ActionConfig;
  user_swipe_threshold : option Q;
  user_tap_threshold : option Q;
  user_tap_timeout : option Z
}.

Definition or_default {A} (v : option A) (d : A) : A :=
  match v with Some x => x | None => d end.

(** [setConfig]: the defaults, overridden by the user's entries. *)
Definition setConfig (config : HaTouchPadConfig) : InternalConfig :=
  {| tap_action := user_tap_action config;
     double_tap_action := user_double_tap_action config;
     up_action := user_up_action config;
     down_action := user_down_action config;
     left_action := user_left_action config;
     right_action := user_right_action config;
     swipe_threshold := or_default (user_swipe_threshold config) 50%Q;
     tap_threshold := or_default (user_tap_threshold config) 5%Q;
     tap_timeout := or_default (user_tap_timeout config) 200 |}.

(** [this._config[`${action}_action`]] *)
Definition action_of (c : InternalConfig) (action : Gesture)
  : option ActionConfig :=
  match action with
  | tap => tap_action c
  | double_tap => double_tap_action c
  | up => up_action c
  | down => down_action c
  | left => left_action c
  | right => right_action c
  end.

(** The ['hass-action'] event handed to [dispatchEvent]. *)
Record TouchActionEvent := {
  event_type : string;
  bubbles : bool;
  composed : bool;
  detail_action : string;
  detail_config_tap_action : ActionConfig
}.

Definition hass_action (config : ActionConfig) : TouchActionEvent :=
  {| event_type := "hass-action";
     bubbles := true;
     composed := true;
     detail_action := "tap";
     detail_config_tap_action := config |}.

(** One call of [_fireEvent]: when it happened, the gesture it was called
    with, and the event it dispatched, if any. *)
Record Call := {
  at_ms : Z;
  gesture : Gesture;
  dispatched : option TouchActionEvent
}.

(** ** State *)

Record TouchPad := {
  _config : InternalConfig;
  _circle : Style;
  _startX : JS.number;
  _startY : JS.number;
  _lastTouch : option Z;
  _timeout : option Z;
  _mouseDown : option bool
}.

(** A pending [setTimeout] entry. The only callback the component ever
    registers is the deferred tap, so an entry is its handle and the time
    from which it may run. *)
Record Timer := {
  handle : Z;
  due : Z
}.

Record World := {
  pad : TouchPad;
  layout : Layout;
  now : Z;                 (* Date.now() *)
  timers : list Timer;     (* pending timeouts *)
  next_handle : Z;         (* the handle the next setTimeout returns *)
  listening : bool;        (* the six listeners are registered *)
  log : list Call          (* calls of _fireEvent, oldest first *)
}.

Definition with_pad (p : TouchPad) (w : World) : World :=
  {| pad := p; layout := layout w; now := now w; timers := timers w;
     next_handle := next_handle w; listening := listening w; log := log w |}.

Definition with_timers (ts : list Timer) (w : World) : World :=
  {| pad := pad w; layout := layout w; now := now w; timers := ts;
     next_handle := next_handle w; listening := listening w; log := log w |}.

Definition with_log (l : list Call) (w : World) : World :=
  {| pad := pad w; layout := layout w; now := now w; timers := timers w;
     next_handle := next_handle w; listening := listening w; log := l |}.

Definition with_listening (b : bool) (w : World) : World :=
  {| pad := pad w; layout := layout w; now := now w; timers := timers w;
     next_handle := next_handle w; listening := b; log := log w |}.

Definition with_now (t : Z) (w : World) : World :=
  {| pad := pad w; layout := layout w; now := t; timers := timers w;
     next_handle := next_handle w; listening := listening w; log := log w |}.

Definition with_layout (l : Layout) (w : World) : World :=
  {| pad := pad w; layout := l; now := now w; timers := timers w;
     next_handle := next_handle w; listening := listening w; log := log w |}.

Definition set_config (c : InternalConfig) (p : TouchPad) : TouchPad :=
  {| _config := c; _circle := _circle p; _startX := _startX p;
     _startY := _startY p; _lastTouch := _lastTouch p;
     _timeout := _timeout p; _mouseDown := _mouseDown p |}.

Definition set_circle (s : Style) (p : TouchPad) : TouchPad :=
  {| _config := _config p; _circle := s; _startX := _startX p;
     _startY := _startY p; _lastTouch := _lastTouch p;
     _timeout := _timeout p; _mouseDown := _mouseDown p |}.

Definition set_start (x y : JS.number) (p : TouchPad) : TouchPad :=
  {| _config := _config p; _circle := _circle p; _startX := x;
     _startY := y; _lastTouch := _lastTouch p;
     _timeout := _timeout p; _mouseDown := _mouseDown p |}.

Definition set_lastTouch (t : Z) (p : TouchPad) : TouchPad :=
  {| _config := _config p; _circle := _circle p; _startX := _startX p;
     _startY := _startY p; _lastTouch := Some t;
     _timeout := _timeout p; _mouseDown := _mouseDown p |}.

Definition set_timeout (h : Z) (p : TouchPad) : TouchPad :=
  {| _config := _config p; _circle := _circle p; _startX := _startX p;
     _startY := _startY p; _lastTouch := _lastTouch p;
     _timeout := Some h; _mouseDown := _mouseDown p |}.

Definition set_mouseDown (b : bool) (p : TouchPad) : TouchPad :=
  {| _config := _config p; _circle := _circle p; _startX := _startX p;
     _startY := _startY p; _lastTouch := _lastTouch p;
     _timeout := _timeout p; _mouseDown := Some b |}.

Definition set_transition (t : Transition) (s : Style) : Style :=
  {| transition := t; style_left := style_left s; style_top := style_top s |}.

Definition set_left (i : Inset) (s : Style) : Style :=
  {| transition := transition s; style_left := i; style_top := style_top s |}.

Definition set_top (i : Inset) (s : Style) : Style :=
  {| transition := transition s; style_left := style_left s; style_top := i |}.

(** ** Timers of the host page *)

(** [setTimeout(callback, delay)]: a fresh handle; the callback may run
    once [delay] milliseconds have passed (a negative delay counts as 0). *)
Definition setTimeout (delay : Z) (w : World) : Z * World :=
  (next_handle w,
   {| pad := pad w; layout := layout w; now := now w;
      timers := timers w ++ [{| handle := next_handle w;
                                due := now w + Z.max 0 delay |}];
      next_handle := next_handle w + 1;
      listening := listening w; log := log w |}).

(** [clearTimeout(h)]: drops the entry with that handle; nothing happens for
    [undefined] or for a handle that is no longer pending. *)
Definition clearTimeout (h : option Z) (w : World) : World :=
  match h with
  | None => w
  | Some id =>
      with_timers (filter (fun t => negb (handle t =? id)) (timers w)) w
  end.

(** ** The component *)

Definition _fireEvent (action : Gesture) (w : World) : World :=
  let config := action_of (_config (pad w)) action in
  match config with
  | None =>
      with_log (log w ++ [{| at_ms := now w; gesture := action;
                             dispatched := None |}]) w
  | Some c =>
      with_log (log w ++ [{| at_ms := now w; gesture := action;
                             dispatched := Some (hass_action c) |}]) w
  end.

Definition _handleStart (event : PointerEvent) (w : World) : World :=
  let p := pad w in
  let p := set_mouseDown (negb (isTouch event)) p in
  let p := set_start (Some (clientX event)) (Some (clientY event)) p in
  let p := set_circle (set_transition TransitionNone (_circle p)) p in
  with_pad p w.

Definition maxDelta (outer inner : Z) : Q := (inject_Z (outer - inner) / 2)%Q.

Definition _handleMove (event : PointerEvent) (w : World) : World :=
  let p := pad w in
  if negb (isTouch event) && JS.not (_mouseDown p) then w
  else
    let maxDeltaX :=
      Some (maxDelta (offsetWidth (layout w)) (circle_offsetWidth (layout w))) in
    let maxDeltaY :=
      Some (maxDelta (offsetHeight (layout w)) (circle_offsetHeight (layout w))) in
    let left :=
      JS.max (JS.min (JS.sub (Some (clientX event)) (_startX p)) maxDeltaX)
             (JS.neg maxDeltaX) in
    let top :=
      JS.max (JS.min (JS.sub (Some (clientY event)) (_startY p)) maxDeltaY)
             (JS.neg maxDeltaY) in
    let p := set_circle (set_left (InsetCalc left) (_circle p)) p in
    let p := set_circle (set_top (InsetCalc top) (_circle p)) p in
    with_pad p w.

(** The body of the timeout registered by a single tap. *)
Definition deferred_tap (w : World) : World :=
  let w := _fireEvent tap w in
  clearTimeout (_timeout (pad w)) w.

Definition _handleEnd (event : PointerEvent) (w : World) : World :=
  let w := with_pad (set_mouseDown false (pad w)) w in
  if negb (isTouch event) && JS.not (_mouseDown (pad w)) then w
  else
    let c := _config (pad w) in
    let rawDeltaX := JS.sub (Some (clientX event)) (_startX (pad w)) in
    let rawDeltaY := JS.sub (Some (clientY event)) (_startY (pad w)) in
    let deltaX := JS.abs rawDeltaX in
    let deltaY := JS.abs rawDeltaY in
    let s := _circle (pad w) in
    let s := set_transition TransitionReturn s in
    let s := set_left InsetCenter s in
    let s := set_top InsetCenter s in
    let w := with_pad (set_circle s (pad w)) w in
    if JS.lt deltaX (Some (tap_threshold c))
       && JS.lt deltaY (Some (tap_threshold c))
    then
      let currentTimestamp := now w in
      let w := clearTimeout (_timeout (pad w)) w in
      let w :=
        if match _lastTouch (pad w) with
           | Some last => currentTimestamp - last <? tap_timeout c
           | None => false
           end
        then _fireEvent double_tap w
        else
          let (h, w) := setTimeout (tap_timeout c) w in
          with_pad (set_timeout h (pad w)) w in
      with_pad (set_lastTouch currentTimestamp (pad w)) w
    else if JS.gt deltaX deltaY && JS.gt deltaX (Some (swipe_threshold c))
    then _fireEvent (if JS.gt rawDeltaX (Some 0%Q) then right else left) w
    else if JS.gt deltaY deltaX && JS.gt deltaY (Some (swipe_threshold c))
    then _fireEvent (if JS.gt rawDeltaY (Some 0%Q) then down else up) w
    else w.

Definition connectedCallback (w : World) : World := with_listening true w.

Definition disconnectedCallback (w : World) : World := with_listening false w.

(** ** The host page's event loop *)

(** The three listeners; [touchstart] and [mousedown] run [_handleStart],
    [touchmove] and [mousemove] run [_handleMove], [touchend] and [mouseup]
    run [_handleEnd]. *)
Inductive Listener := OnStart | OnMove | OnEnd.

Definition handler (l : Listener) : PointerEvent -> World -> World :=
  match l with
  | OnStart => _handleStart
  | OnMove => _handleMove
  | OnEnd => _handleEnd
  end.

Definition pending (id : Z) (w : World) : option Timer :=
  find (fun t => handle t =? id) (timers w).

(** The page runs a pending timeout: not before it is due; the entry leaves
    the pending list and the callback runs. *)
Definition fire_timer (id : Z) (w : World) : option World :=
  match pending id w with
  | Some t =>
      if due t <=? now w
      then Some (deferred_tap (clearTimeout (Some id) w))
      else None
  | None => None
  end.

(** What can happen next on the page. *)
Inductive Action :=
| Elapse (ms : Z)                               (* the clock moves on *)
| Input (l : Listener) (event : PointerEvent)   (* an input event occurs *)
| TimerFires (id : Z)                           (* a timeout is run *)
| Relayout (l : Layout)                         (* the boxes change size *)
| Connect                                       (* connectedCallback *)
| Disconnect.                                   (* disconnectedCallback *)

(** One turn of the event loop; [None] when the action cannot happen
    (the clock does not run backwards, a timeout does not run early).
    An input event reaches its handler only while the listeners are
    registered. *)
Definition step (a : Action) (w : World) : option World :=
  match a with
  | Elapse ms => if 0 <=? ms then Some (with_now (now w + ms) w) else None
  | Input l event =>
      if listening w then Some (handler l event w) else Some w
  | TimerFires id => fire_timer id w
  | Relayout l => Some (with_layout l w)
  | Connect => Some (connectedCallback w)
  | Disconnect => Some (disconnectedCallback w)
  end.

Fixpoint run (acts : list Action) (w : World) : option World :=
  match acts with
  | [] => Some w
  | a :: rest =>
      match step a w with
      | Some w' => run rest w'
      | None => None
      end
  end.

(** A freshly constructed, configured element at clock [t0]: no field
    assigned yet, nothing pending, not yet connected. *)
Definition initial (c : InternalConfig) (l : Layout) (t0 : Z) : World :=
  {| pad := {| _config := c;
               _circle := {| transition := TransitionInitial;
                             style_left := InsetInitial;
                             style_top := InsetInitial |};
               _startX := None; _startY := None;
               _lastTouch := None; _timeout := None;
               _mouseDown := None |};
     layout := l; now := t0; timers := []; next_handle := 1;
     listening := false; log := [] |}.

Definition reachable (w : World) : Prop :=
  exists c l t0 acts, run acts (initial c l t0) = Some w.

(** The gestures [_fireEvent] was called with, and the events that left
    the component. *)
Definition gestures (l : list Call) : list Gesture := map gesture l.

Fixpoint outbound (l : list Call) : list TouchActionEvent :=
  match l with
  | [] => []
  | c :: rest =>
      match dispatched c with
      | Some e => e :: outbound rest
      | None => outbound rest
      end
  end.

(** The record a call of [_fireEvent] leaves in the log. *)
Definition call_of (w : World) (g : Gesture) : Call :=
  {| at_ms := now w; gesture := g;
     dispatched := option_map hass_action (action_of (_config (pad w)) g) |}.

(** At most one timeout is pending, and it is the one [_timeout] names. *)
Definition one_pending (w : World) : Prop :=
  match timers w with
  | [] => True
  | [t] => _timeout (pad w) = Some (handle t)
  | _ => False
  end.

(** An action other than a touch release. *)
Definition quiet (a : Action) : Prop :=
  match a with
  | Input OnEnd event => isTouch event = false
  | _ => True
  end.

(** ** Notions the statements use *)

(** The state a touch release is classified in: the flag cleared and the
    cursor sent back to the centre. *)
Definition recentred (w : World) : World :=
  with_pad
    (set_circle {| transition := TransitionReturn;
                   style_left := InsetCenter;
                   style_top := InsetCenter |}
                (set_mouseDown false (pad w))) w.

(** What the tap branch of [_handleEnd] does to that state. *)
Definition tap_branch (w : World) : World :=
  let c := _config (pad w) in
  let w1 := clearTimeout (_timeout (pad w)) w in
  let w2 :=
    if match _lastTouch (pad w1) with
       | Some last => now w - last <? tap_timeout c
       | None => false
       end
    then _fireEvent double_tap w1
    else with_pad (set_timeout (next_handle w1) (pad w1))
                  (snd (setTimeout (tap_timeout c) w1)) in
  with_pad (set_lastTouch (now w) (pad w2)) w2.

(** Whether the previous tap is still inside the double-tap window, as the
    tap branch tests it. *)
Definition recent_tap (w : World) : bool :=
  match _lastTouch (pad w) with
  | Some last => now w - last <? tap_timeout (_config (pad w))
  | None => false
  end.

(** Two states that agree on everything the tap logic looks at. *)
Definition same_taps (w w' : World) : Prop :=
  timers w' = timers w /\ log w' = log w
  /\ next_handle w' = next_handle w
  /\ _lastTouch (pad w') = _lastTouch (pad w)
  /\ _timeout (pad w') = _timeout (pad w)
  /\ _config (pad w') = _config (pad w).

(** A touch release whose displacement from the recorded origin is below
    [tap_threshold] on both axes. *)
Definition qualifying_tap (event : PointerEvent) (w : World) : Prop :=
  isTouch event = true
  /\ exists x0 y0,
       _startX (pad w) = Some x0 /\ _startY (pad w) = Some y0
       /\ (Qabs (clientX event - x0) < tap_threshold (_config (pad w)))%Q
       /\ (Qabs (clientY event - y0) < tap_threshold (_config (pad w)))%Q.

(** [v] is [raw] clamped to [[-m, m]]; when the interval is empty
    ([m < 0]) the lower bound wins. *)
Definition clamped (m raw v : Q) : Prop :=
  ((0 <= m -> - m <= v <= m
              /\ (raw < - m -> v == - m)
              /\ (- m <= raw <= m -> v == raw)
              /\ (m < raw -> v == m))
   /\ (m < 0 -> v == - m))%Q.

(** The test that opens the tap branch of [_handleEnd]:
    [deltaX < tap_threshold && deltaY < tap_threshold]. *)
Definition tap_test (event : PointerEvent) (w : World) : bool :=
  JS.lt (JS.abs (JS.sub (Some (clientX event)) (_startX (pad w))))
        (Some (tap_threshold (_config (pad w))))
  && JS.lt (JS.abs (JS.sub (Some (clientY event)) (_startY (pad w))))
           (Some (tap_threshold (_config (pad w)))).

(** The four directions. *)
Definition is_swipe (g : Gesture) : Prop :=
  match g with
  | tap | double_tap => False
  | up | down | left | right => True
  end.

(** [max(min(raw, m), -m)], the offset [_handleMove] computes on one axis. *)
Definition offset_of (m raw : Q) : Q := Qmax (Qmin raw m) (- m).


(** A pending timeout is the deferred tap of the latest qualifying release:
    [_timeout] names it and it is due [tap_timeout] after [_lastTouch]; and
    [_lastTouch] never lies in the future. *)
Definition pending_is_last_tap (w : World) : Prop :=
  (forall t, In t (timers w) ->
     _timeout (pad w) = Some (handle t)
     /\ exists last,
          _lastTouch (pad w) = Some last
          /\ due t = last + Z.max 0 (tap_timeout (_config (pad w))))
  /\ (forall last, _lastTouch (pad w) = Some last -> last <= now w).

(** Only swipes have been fired, and no tap is on its way. *)
Definition swipes_only (w : World) : Prop :=
  timers w = [] /\ _lastTouch (pad w) = None
  /\ Forall (fun call => is_swipe (gesture call)) (log w).


(** A run in which no touch release passes the tap test (in the state it
    arrives in): swipes and dead-zone releases are allowed, taps are not. *)
Fixpoint tapless (acts : list Action) (w : World) : Prop :=
  match acts with
  | [] => True
  | a :: rest =>
      match a with
      | Input OnEnd event =>
          listening w = true -> isTouch event = true ->
          tap_test event w = false
      | _ => True
      end
      /\ match step a w with
         | Some w' => tapless rest w'
         | None => True
         end
  end.

(** [gap] milliseconds of quiet, then a finger goes down and comes up at
    ([x], [y]); once for every gap of the list. *)
Definition rapid_taps (gaps : list Z) (x y : Q) : list Action :=
  flat_map
    (fun gap =>
       [Elapse gap;
        Input OnStart {| isTouch := true; clientX := x; clientY := y |};
        Input OnEnd {| isTouch := true; clientX := x; clientY := y |}])
    gaps.


(** Every recorded call dispatched what the configuration [c] holds for its
    gesture: the wrapped action, or nothing. *)
Definition faithful_log (c : InternalConfig) (l : list Call) : Prop :=
  Forall (fun call =>
            dispatched call
            = option_map hass_action (action_of c (gesture call))) l.


End TouchPad.

(** ** Example states

    The pad as the card sets it up by default ([swipe_threshold = 50],
    [tap_threshold = 5], [tap_timeout = 200]), with string action
    descriptors, in a 300 x 300 box with the default 40 x 40 cursor. *)

Definition demo_config : @InternalConfig string :=
  setConfig {| user_tap_action := Some "toggle"%string;
               user_double_tap_action := Some "more-info"%string;
               user_up_action := Some "volume-up"%string;
               user_down_action := Some "volume-down"%string;
               user_left_action := None;
               user_right_action := Some "next"%string;
               user_swipe_threshold := None;
               user_tap_threshold := None;
               user_tap_timeout := None |}.

Definition demo_layout : Layout :=
  {| offsetWidth := 300; offsetHeight := 300;
     circle_offsetWidth := 40; circle_offsetHeight := 40 |}.

Definition touch (x y : Q) : PointerEvent :=
  {| isTouch := true; clientX := x; clientY := y |}.

Definition mouse (x y : Q) : PointerEvent :=
  {| isTouch := false; clientX := x; clientY := y |}.

(** Connected, and a finger just went down at (100, 100). *)
Definition pressed : @World string :=
  Eval vm_compute in
    _handleStart (touch 100 100)
      (connectedCallback (initial demo_config demo_layout 0)).

(** The finger came up where it went down; 50 ms later it is down again, at
    (100, 103). *)
Definition pressed_twice : @World string :=
  Eval vm_compute in
    _handleStart (touch 100 103)
      (with_now 50 (_handleEnd (touch 100 100) pressed)).

(** The same once more, another 50 ms later. *)
Definition pressed_thrice : @World string :=
  Eval vm_compute in
    _handleStart (touch 100 103)
      (with_now 100 (_handleEnd (touch 100 103) pressed_twice)).

(** A cursor larger than the pad (say [cursor_size: 400px] in a 300 px
    card). *)
Definition oversized_cursor : Layout :=
  {| offsetWidth := 300; offsetHeight := 300;
     circle_offsetWidth := 400; circle_offsetHeight := 400 |}.

(** The default configuration with taps switched off
    ([tap_threshold: 0]). *)
Definition swipes_only_config : @InternalConfig string :=
  setConfig {| user_tap_action := Some "toggle"%string;
               user_double_tap_action := Some "more-info"%string;
               user_up_action := Some "volume-up"%string;
               user_down_action := Some "volume-down"%string;
               user_left_action := None;
               user_right_action := Some "next"%string;
               user_swipe_threshold := None;
               user_tap_threshold := Some 0%Q;
               user_tap_timeout := None |}.


(** What the user wrote to get [demo_config]. *)
Definition demo_user_config : @HaTouchPadConfig string :=
  {| user_tap_action := Some "toggle"%string;
     user_double_tap_action := Some "more-info"%string;
     user_up_action := Some "volume-up"%string;
     user_down_action := Some "volume-down"%string;
     user_left_action := None;
     user_right_action := Some "next"%string;
     user_swipe_threshold := None;
     user_tap_threshold := None;
     user_tap_timeout := None |}.

(** Connected, nothing pressed yet. *)
Definition connected : @World string :=
  Eval vm_compute in connectedCallback (initial demo_config demo_layout 0).

(** Right after the first tap: the finger of [pressed] came up in place. *)
Definition tapped_once : @World string :=
  Eval vm_compute in _handleEnd (touch 100 100) pressed.

(** After that tap: 20 ms later a swipe to the right, and 30 ms after the
    swipe the finger is down again at (100, 103). *)
Definition swipe_between_taps : list Action :=
  [Elapse 20; Input OnStart (touch 100 100); Input OnEnd (touch 160 100);
   Elapse 30; Input OnStart (touch 100 103)].

Definition pressed_after_swipe : @World string :=
  Eval vm_compute in
    _handleStart (touch 100 103)
      (with_now 50
         (_handleEnd (touch 160 100)
            (_handleStart (touch 100 100) (with_now 20 tapped_once)))).


(** * Properties *)

Lemma Qltb_lt (x y : Q) : JS.Qltb x y = true <-> (x < y)%Q.
Proof.
  unfold JS.Qltb. rewrite negb_true_iff, <- not_true_iff_false, Qle_bool_iff.
  split; [apply Qnot_le_lt | apply Qlt_not_le].
Qed.

Lemma Qltb_ge (x y : Q) : JS.Qltb x y = false <-> (y <= x)%Q.
Proof.
  unfold JS.Qltb. rewrite negb_false_iff. apply Qle_bool_iff.
Qed.

Section Properties.

Context {ActionConfig : Type}.

(** ** Basic facts *)

Lemma fireEvent_eq (g : Gesture) (w : @World ActionConfig) :
  _fireEvent g w = with_log (log w ++ [call_of w g]) w.
Proof.
  unfold _fireEvent, call_of.
  destruct (action_of (_config (pad w)) g); reflexivity.
Qed.

Lemma outbound_app (l1 l2 : list (@Call ActionConfig)) :
  outbound (l1 ++ l2) = outbound l1 ++ outbound l2.
Proof.
  induction l1 as [|c l1 IH]; simpl; [reflexivity|].
  destruct (dispatched c); simpl; now rewrite IH.
Qed.

Lemma handleEnd_mouse (event : PointerEvent) (w : @World ActionConfig) :
  isTouch event = false ->
  _handleEnd event w = with_pad (set_mouseDown false (pad w)) w.
Proof.
  intros Hm. unfold _handleEnd. cbn [pad with_pad _mouseDown set_mouseDown].
  rewrite Hm. reflexivity.
Qed.

Lemma handleEnd_touch (event : PointerEvent) (w : @World ActionConfig) (x0 y0 : Q) :
  isTouch event = true ->
  _startX (pad w) = Some x0 ->
  _startY (pad w) = Some y0 ->
  let c := _config (pad w) in
  let rawDeltaX := (clientX event - x0)%Q in
  let rawDeltaY := (clientY event - y0)%Q in
  let deltaX := Qabs rawDeltaX in
  let deltaY := Qabs rawDeltaY in
  _handleEnd event w =
    if JS.Qltb deltaX (tap_threshold c) && JS.Qltb deltaY (tap_threshold c)
    then tap_branch (recentred w)
    else if JS.Qltb deltaY deltaX && JS.Qltb (swipe_threshold c) deltaX
    then _fireEvent (if JS.Qltb 0 rawDeltaX then right else left) (recentred w)
    else if JS.Qltb deltaX deltaY && JS.Qltb (swipe_threshold c) deltaY
    then _fireEvent (if JS.Qltb 0 rawDeltaY then down else up) (recentred w)
    else recentred w.
Proof.
  intros Ht Hx Hy. unfold _handleEnd.
  cbn [pad with_pad _mouseDown set_mouseDown _startX _startY _config].
  rewrite Ht, Hx, Hy. cbn [negb andb].
  reflexivity.
Qed.


Lemma clearTimeout_frame (h : option Z) (w : @World ActionConfig) :
  pad (clearTimeout h w) = pad w /\ now (clearTimeout h w) = now w
  /\ log (clearTimeout h w) = log w
  /\ next_handle (clearTimeout h w) = next_handle w
  /\ listening (clearTimeout h w) = listening w
  /\ layout (clearTimeout h w) = layout w.
Proof. destruct h; repeat split. Qed.

Lemma clearTimeout_own (w : @World ActionConfig) :
  one_pending w -> timers (clearTimeout (_timeout (pad w)) w) = [].
Proof.
  unfold one_pending, clearTimeout.
  destruct (timers w) as [|t [|t' ts]] eqn:Hts; intros H.
  - destruct (_timeout (pad w)); cbn; try rewrite Hts; auto.
  - rewrite H. cbn. try rewrite Hts. cbn. now rewrite Z.eqb_refl.
  - contradiction.
Qed.

(** Turns the boolean tests of the handlers into order facts on [Q]. *)
Ltac order_facts :=
  repeat match goal with
  | H : JS.Qltb _ _ = true |- _ => apply Qltb_lt in H
  | H : JS.Qltb _ _ = false |- _ => apply Qltb_ge in H
  end.

Ltac split_tests :=
  repeat match goal with
  | |- context [JS.Qltb ?a ?b] =>
      let E := fresh "E" in destruct (JS.Qltb a b) eqn:E
  end;
  cbn [andb]; order_facts.

(** ** The release handler, case by case *)

(** C10: a mouse release stops at the early-ignore guard. [_handleEnd]
    clears [_mouseDown] before the guard reads it, so for a non-touch event
    the guard always returns: nothing is fired, no timer is touched, the
    cursor style is left as it was, and the outcome does not depend on the
    configuration (thresholds included); only the flag changes. *)
Theorem mouse_release_only_clears_flag (event : PointerEvent) (w : @World ActionConfig) :
  isTouch event = false ->
  _handleEnd event w = with_pad (set_mouseDown false (pad w)) w
  /\ _mouseDown (pad (_handleEnd event w)) = Some false
  /\ log (_handleEnd event w) = log w
  /\ timers (_handleEnd event w) = timers w
  /\ _circle (pad (_handleEnd event w)) = _circle (pad w)
  /\ _lastTouch (pad (_handleEnd event w)) = _lastTouch (pad w)
  /\ forall c : InternalConfig,
       _handleEnd event (with_pad (set_config c (pad w)) w)
       = with_pad (set_config c (pad (_handleEnd event w)))
                  (_handleEnd event w).
Proof.
  intros Hm. repeat split; try (rewrite handleEnd_mouse by assumption; reflexivity).
  intros c. now rewrite !handleEnd_mouse by assumption.
Qed.

(** C7: [_fireEvent] looks up the entry [<gesture>_action] of the
    configuration: [tap_action] for [tap], [double_tap_action] for
    [double_tap], and so on. When that entry is absent it dispatches
    nothing; when it holds a descriptor it dispatches exactly one
    ['hass-action'] event whose detail is
    [{action: 'tap', config: {tap_action: <that descriptor>}}]. In both cases
    the component's fields, the timers and the clock are left alone. *)
Theorem fireEvent_dispatch (g : Gesture) (w : @World ActionConfig) :
  let c := _config (pad w) in
  let configured :=
    match g with
    | tap => tap_action c
    | double_tap => double_tap_action c
    | up => up_action c
    | down => down_action c
    | left => left_action c
    | right => right_action c
    end in
  let sent (d : ActionConfig) :=
    {| event_type := "hass-action"; bubbles := true; composed := true;
       detail_action := "tap"; detail_config_tap_action := d |} in
  log (_fireEvent g w)
  = log w ++ [{| at_ms := now w; gesture := g;
                 dispatched := match configured with
                               | None => None
                               | Some d => Some (sent d)
                               end |}]
  /\ outbound (log (_fireEvent g w))
     = outbound (log w)
       ++ match configured with
          | None => []
          | Some d => [sent d]
          end
  /\ gestures (log (_fireEvent g w)) = gestures (log w) ++ [g]
  /\ pad (_fireEvent g w) = pad w
  /\ timers (_fireEvent g w) = timers w
  /\ next_handle (_fireEvent g w) = next_handle w
  /\ now (_fireEvent g w) = now w
  /\ listening (_fireEvent g w) = listening w
  /\ layout (_fireEvent g w) = layout w.
Proof.
  intros c configured sent.
  assert (Hlookup : action_of c g = configured) by (destruct g; reflexivity).
  unfold _fireEvent, gestures. fold c. rewrite Hlookup.
  destruct configured as [d|]; cbn [log with_log];
    rewrite outbound_app, map_app; cbn; repeat split.
Qed.

(** C4: the dead zone. A release outside the tap region that meets neither
    swipe condition fires nothing and leaves the timers alone; so does, in
    particular, a tie between the two axes, and a displacement that stays at
    or below the swipe threshold on both axes. *)
Theorem dead_zone_emits_nothing
  (event : PointerEvent) (w : @World ActionConfig) (x0 y0 : Q) :
  _startX (pad w) = Some x0 ->
  _startY (pad w) = Some y0 ->
  let c := _config (pad w) in
  let deltaX := Qabs (clientX event - x0) in
  let deltaY := Qabs (clientY event - y0) in
  (tap_threshold c <= deltaX \/ tap_threshold c <= deltaY)%Q ->
  let silent :=
    log (_handleEnd event w) = log w
    /\ timers (_handleEnd event w) = timers w in
  (~ (deltaX > deltaY /\ deltaX > swipe_threshold c)%Q ->
   ~ (deltaY > deltaX /\ deltaY > swipe_threshold c)%Q -> silent)
  /\ (deltaX == deltaY -> silent)
  /\ (deltaX <= swipe_threshold c -> deltaY <= swipe_threshold c -> silent)%Q.
Proof.
  intros Hx Hy c deltaX deltaY Hout silent.
  assert (Hgen : ~ (deltaX > deltaY /\ deltaX > swipe_threshold c)%Q ->
                 ~ (deltaY > deltaX /\ deltaY > swipe_threshold c)%Q -> silent).
  { intros Hh Hv. unfold silent.
    destruct (isTouch event) eqn:Ht.
    - rewrite (handleEnd_touch event w x0 y0 Ht Hx Hy).
      fold c deltaX deltaY. split_tests;
        try (split; reflexivity);
        try (exfalso; destruct Hout; lra);
        try (exfalso; apply Hh; split; assumption);
        try (exfalso; apply Hv; split; assumption).
    - rewrite handleEnd_mouse by assumption. split; reflexivity. }
  split; [exact Hgen|]. split.
  - intros Heq. apply Hgen; intros [H1 H2]; lra.
  - intros H1 H2. apply Hgen; intros [H3 H4]; lra.
Qed.


Lemma tap_branch_recent (w : @World ActionConfig) :
  recent_tap w = true ->
  tap_branch w
  = with_pad (set_lastTouch (now w) (pad w))
      (_fireEvent double_tap (clearTimeout (_timeout (pad w)) w)).
Proof.
  unfold recent_tap, tap_branch. intros Hr.
  destruct (clearTimeout_frame (_timeout (pad w)) w) as [Hp _].
  cbv zeta. rewrite Hp, Hr.
  assert (Hp' : pad (_fireEvent double_tap (clearTimeout (_timeout (pad w)) w))
                = pad (clearTimeout (_timeout (pad w)) w))
    by now rewrite fireEvent_eq.
  now rewrite Hp', Hp.
Qed.

Lemma tap_branch_fresh (w : @World ActionConfig) :
  recent_tap w = false ->
  tap_branch w
  = let w1 := clearTimeout (_timeout (pad w)) w in
    {| pad := set_lastTouch (now w) (set_timeout (next_handle w) (pad w));
       layout := layout w; now := now w;
       timers := timers w1
                 ++ [{| handle := next_handle w;
                        due := now w + Z.max 0 (tap_timeout (_config (pad w))) |}];
       next_handle := next_handle w + 1;
       listening := listening w; log := log w |}.
Proof.
  unfold recent_tap, tap_branch. intros Hr.
  destruct (clearTimeout_frame (_timeout (pad w)) w)
    as (Hp & Hn & Hl & Hh & Hli & Hla).
  cbv zeta. rewrite Hp, Hr. unfold setTimeout, with_pad.
  cbn [fst snd pad layout now timers next_handle listening log].
  now rewrite Hn, Hl, Hh, Hli, Hla.
Qed.

Lemma tap_branch_log (w : @World ActionConfig) :
  log (tap_branch w)
  = log w ++ (if recent_tap w then [call_of w double_tap] else []).
Proof.
  destruct (recent_tap w) eqn:Hr.
  - rewrite tap_branch_recent by assumption. cbn [log with_pad].
    rewrite fireEvent_eq. cbn [log with_log].
    destruct (clearTimeout_frame (_timeout (pad w)) w) as (Hp & Hn & Hl & _).
    unfold call_of. now rewrite Hp, Hn, Hl.
  - rewrite tap_branch_fresh by assumption. cbn. now rewrite app_nil_r.
Qed.

(** X17: swipes by touch. Outside the tap region, a touch release that
    moved further along X than along Y, and further than [swipe_threshold],
    fires exactly one gesture: [right] when the signed displacement is
    positive, [left] otherwise; symmetrically [down] / [up] along Y. The tap
    region is tested first: inside it no swipe is fired, whatever the swipe
    conditions say. *)
Theorem swipe_direction (event : PointerEvent) (w : @World ActionConfig) (x0 y0 : Q) :
  isTouch event = true ->
  _startX (pad w) = Some x0 ->
  _startY (pad w) = Some y0 ->
  let c := _config (pad w) in
  let rawDeltaX := (clientX event - x0)%Q in
  let rawDeltaY := (clientY event - y0)%Q in
  let deltaX := Qabs rawDeltaX in
  let deltaY := Qabs rawDeltaY in
  let in_tap_region :=
    (deltaX < tap_threshold c /\ deltaY < tap_threshold c)%Q in
  let fires g :=
    log (_handleEnd event w) = log w ++ [call_of w g]
    /\ timers (_handleEnd event w) = timers w in
  (~ in_tap_region -> (deltaX > deltaY)%Q -> (deltaX > swipe_threshold c)%Q ->
     ((0 < rawDeltaX)%Q -> fires right) /\ ((rawDeltaX <= 0)%Q -> fires left))
  /\ (~ in_tap_region -> (deltaY > deltaX)%Q -> (deltaY > swipe_threshold c)%Q ->
     ((0 < rawDeltaY)%Q -> fires down) /\ ((rawDeltaY <= 0)%Q -> fires up))
  /\ (in_tap_region ->
        log (_handleEnd event w) = log w
        \/ log (_handleEnd event w) = log w ++ [call_of w double_tap]).
Proof.
  intros Ht Hx Hy c rawDeltaX rawDeltaY deltaX deltaY in_tap_region fires.
  unfold fires, in_tap_region.
  rewrite (handleEnd_touch event w x0 y0 Ht Hx Hy).
  fold c rawDeltaX rawDeltaY deltaX deltaY.
  split; [|split].
  - intros Hout Hgt Hsw. split; intros Hsign; split_tests;
      try (exfalso; apply Hout; split; assumption);
      try (exfalso; lra);
      rewrite fireEvent_eq; split; reflexivity.
  - intros Hout Hgt Hsw. split; intros Hsign; split_tests;
      try (exfalso; apply Hout; split; assumption);
      try (exfalso; lra);
      rewrite fireEvent_eq; split; reflexivity.
  - intros [H1 H2].
    apply Qltb_lt in H1, H2. rewrite H1, H2. cbn [andb].
    rewrite tap_branch_log.
    change (log (recentred w)) with (log w).
    destruct (recent_tap (recentred w)).
    + right. reflexivity.
    + left. apply app_nil_r.
Qed.


(** ** Outcomes of a release, whatever the state *)

Lemma handleEnd_outcomes (event : PointerEvent) (w : @World ActionConfig) :
  _handleEnd event w = with_pad (set_mouseDown false (pad w)) w
  \/ _handleEnd event w = tap_branch (recentred w)
  \/ (exists g, _handleEnd event w = _fireEvent g (recentred w))
  \/ _handleEnd event w = recentred w.
Proof.
  unfold _handleEnd.
  cbn [pad with_pad _mouseDown set_mouseDown JS.not _config _startX _startY].
  destruct (negb (isTouch event) && true); [now left|].
  match goal with |- context [if ?b then _ else _] => destruct b end.
  { right; left; reflexivity. }
  match goal with |- context [if ?b then _ else _] => destruct b end.
  { right; right; left; eexists; reflexivity. }
  match goal with |- context [if ?b then _ else _] => destruct b end.
  { right; right; left; eexists; reflexivity. }
  right; right; right; reflexivity.
Qed.

Lemma same_taps_refl (w : @World ActionConfig) : same_taps w w.
Proof. repeat split. Qed.

Lemma same_taps_trans (a b c : @World ActionConfig) :
  same_taps a b -> same_taps b c -> same_taps a c.
Proof.
  unfold same_taps. intros (?&?&?&?&?&?) (?&?&?&?&?&?).
  repeat split; congruence.
Qed.

Lemma handleStart_same_taps (event : PointerEvent) (w : @World ActionConfig) :
  same_taps w (_handleStart event w).
Proof. repeat split. Qed.

Lemma handleMove_same_taps (event : PointerEvent) (w : @World ActionConfig) :
  same_taps w (_handleMove event w).
Proof.
  unfold _handleMove.
  destruct (negb (isTouch event) && JS.not (_mouseDown (pad w)));
    repeat split.
Qed.

Lemma one_pending_same (w w' : @World ActionConfig) :
  same_taps w w' -> one_pending w -> one_pending w'.
Proof.
  unfold same_taps, one_pending. intros (Ht & _ & _ & _ & Hto & _).
  now rewrite Ht, Hto.
Qed.

Lemma one_pending_filter (f : Timer -> bool) (w : @World ActionConfig) :
  one_pending w -> one_pending (with_timers (filter f (timers w)) w).
Proof.
  unfold one_pending. cbn [timers with_timers pad].
  destruct (timers w) as [|t [|t' ts]]; cbn; auto.
  - destruct (f t); auto.
  - contradiction.
Qed.

Lemma one_pending_clearTimeout (h : option Z) (w : @World ActionConfig) :
  one_pending w -> one_pending (clearTimeout h w).
Proof.
  destruct h; cbn [clearTimeout]; auto using one_pending_filter.
Qed.

Lemma one_pending_fireEvent (g : Gesture) (w : @World ActionConfig) :
  one_pending w -> one_pending (_fireEvent g w).
Proof. rewrite fireEvent_eq. auto. Qed.

Lemma one_pending_length (w : @World ActionConfig) :
  one_pending w -> (List.length (timers w) <= 1)%nat.
Proof.
  unfold one_pending. destruct (timers w) as [|t [|t' ts]]; cbn; intros;
    try lia; contradiction.
Qed.

Lemma tap_branch_one_pending (w : @World ActionConfig) :
  one_pending w -> one_pending (tap_branch w).
Proof.
  intros H. destruct (recent_tap w) eqn:Hr.
  - rewrite tap_branch_recent by assumption.
    unfold one_pending. cbn [timers with_pad]. rewrite fireEvent_eq.
    cbn [timers with_log]. rewrite clearTimeout_own by assumption. exact I.
  - rewrite tap_branch_fresh by assumption.
    unfold one_pending. cbn [timers pad].
    rewrite clearTimeout_own by assumption. reflexivity.
Qed.

Lemma handleEnd_one_pending (event : PointerEvent) (w : @World ActionConfig) :
  one_pending w -> one_pending (_handleEnd event w).
Proof.
  intros H.
  assert (Hr : one_pending (recentred w)) by exact H.
  destruct (handleEnd_outcomes event w) as [E|[E|[[g E]|E]]]; rewrite E.
  - exact H.
  - now apply tap_branch_one_pending.
  - now apply one_pending_fireEvent.
  - exact Hr.
Qed.

Lemma pending_In (id : Z) (w : @World ActionConfig) (t : Timer) :
  pending id w = Some t -> In t (timers w) /\ handle t = id.
Proof.
  unfold pending. intros H. apply find_some in H. destruct H as [Hin Heq].
  split; [assumption | now apply Z.eqb_eq].
Qed.

Lemma fire_timer_one_pending (id : Z) (w w' : @World ActionConfig) :
  fire_timer id w = Some w' -> one_pending w -> one_pending w'.
Proof.
  unfold fire_timer. destruct (pending id w) as [t|]; [|discriminate].
  destruct (due t <=? now w); [|discriminate].
  intros [= <-] H. unfold deferred_tap.
  apply one_pending_clearTimeout, one_pending_fireEvent.
  exact (one_pending_clearTimeout (Some id) w H).
Qed.

Lemma step_one_pending (a : Action) (w w' : @World ActionConfig) :
  step a w = Some w' -> one_pending w -> one_pending w'.
Proof.
  destruct a as [ms|l event|id|l| |]; cbn [step].
  - destruct (0 <=? ms); [|discriminate]. now intros [= <-].
  - destruct (listening w); intros [= <-]; [|auto].
    destruct l; cbn [handler]; intros H.
    + exact H.
    + exact (one_pending_same _ _ (handleMove_same_taps event w) H).
    + now apply handleEnd_one_pending.
  - apply fire_timer_one_pending.
  - now intros [= <-].
  - now intros [= <-].
  - now intros [= <-].
Qed.

Lemma run_one_pending (acts : list Action) :
  forall w w' : @World ActionConfig, run acts w = Some w' -> one_pending w -> one_pending w'.
Proof.
  induction acts as [|a rest IH]; cbn [run]; intros w w'.
  - now intros [= <-].
  - destruct (step a w) as [wa|] eqn:Hs; [|discriminate].
    intros Hr H. eapply IH; eauto using step_one_pending.
Qed.

Lemma reachable_one_pending (w : @World ActionConfig) : reachable w -> one_pending w.
Proof.
  intros (c & l & t0 & acts & Hrun).
  eapply run_one_pending; [exact Hrun|]. exact I.
Qed.


(** ** The clock and the pending timer along a run *)

Lemma tap_branch_now (w : @World ActionConfig) : now (tap_branch w) = now w.
Proof.
  destruct (recent_tap w) eqn:Hr.
  - rewrite tap_branch_recent by assumption. cbn [now with_pad].
    rewrite fireEvent_eq. cbn [now with_log].
    apply (clearTimeout_frame (_timeout (pad w)) w).
  - now rewrite tap_branch_fresh by assumption.
Qed.

Lemma handleEnd_now (event : PointerEvent) (w : @World ActionConfig) :
  now (_handleEnd event w) = now w.
Proof.
  destruct (handleEnd_outcomes event w) as [E|[E|[[g E]|E]]]; rewrite E.
  - reflexivity.
  - now rewrite tap_branch_now.
  - now rewrite fireEvent_eq.
  - reflexivity.
Qed.

Lemma fire_timer_spec (id : Z) (w w' : @World ActionConfig) :
  fire_timer id w = Some w' ->
  one_pending w ->
  exists t,
    timers w = [t] /\ handle t = id /\ due t <= now w
    /\ timers w' = [] /\ log w' = log w ++ [call_of w tap]
    /\ pad w' = pad w /\ next_handle w' = next_handle w
    /\ now w' = now w.
Proof.
  unfold fire_timer. destruct (pending id w) as [t|] eqn:Hp; [|discriminate].
  destruct (due t <=? now w) eqn:Hd; [|discriminate].
  intros [= <-] Hone. apply pending_In in Hp. destruct Hp as [Hin Hid].
  unfold one_pending in Hone.
  destruct (timers w) as [|t1 [|t2 ts]] eqn:Hts; try contradiction.
  destruct Hin as [->|[]].
  exists t. split; [reflexivity|]. split; [assumption|].
  split; [now apply Z.leb_le|].
  unfold deferred_tap. rewrite fireEvent_eq.
  cbn [clearTimeout with_timers with_log pad log timers now next_handle].
  cbn [filter]. rewrite Hid, Z.eqb_refl. cbn [negb].
  rewrite Hone. repeat split.
Qed.

Lemma step_now_mono (a : Action) (w w' : @World ActionConfig) :
  step a w = Some w' -> now w <= now w'.
Proof.
  destruct a as [ms|l event|id|l| |]; cbn [step].
  - destruct (0 <=? ms) eqn:E; [|discriminate]. intros [= <-].
    apply Z.leb_le in E. cbn. lia.
  - destruct (listening w); intros [= <-]; [|lia].
    destruct l; cbn [handler].
    + cbn. lia.
    + unfold _handleMove.
      destruct (negb (isTouch event) && JS.not (_mouseDown (pad w)));
        cbn; lia.
    + rewrite handleEnd_now. lia.
  - unfold fire_timer. destruct (pending id w) as [t|]; [|discriminate].
    destruct (due t <=? now w); [|discriminate]. intros [= <-].
    unfold deferred_tap. rewrite fireEvent_eq.
    match goal with
    | |- _ <= now (clearTimeout ?h ?x) =>
        rewrite (proj1 (proj2 (clearTimeout_frame h x)))
    end.
    cbn. lia.
  - intros [= <-]. cbn. lia.
  - intros [= <-]. cbn. lia.
  - intros [= <-]. cbn. lia.
Qed.

Lemma run_now_mono (acts : list Action) :
  forall w w' : @World ActionConfig, run acts w = Some w' -> now w <= now w'.
Proof.
  induction acts as [|a rest IH]; cbn [run]; intros w w'.
  - intros [= <-]. lia.
  - destruct (step a w) as [wa|] eqn:Hs; [|discriminate].
    intros Hr. apply step_now_mono in Hs. apply IH in Hr. lia.
Qed.

(** A quiet action either leaves the tap logic alone or runs a timeout. *)
Lemma quiet_step (a : Action) (w w' : @World ActionConfig) :
  step a w = Some w' -> quiet a ->
  same_taps w w' \/ exists id, a = TimerFires id.
Proof.
  destruct a as [ms|l event|id|l| |]; cbn [step quiet].
  - destruct (0 <=? ms); [|discriminate]. intros [= <-] _. left.
    repeat split.
  - destruct (listening w); intros [= <-] Hq; left;
      [|apply same_taps_refl].
    destruct l; cbn [handler].
    + apply handleStart_same_taps.
    + apply handleMove_same_taps.
    + rewrite handleEnd_mouse by assumption. repeat split.
  - intros _ _. right. now exists id.
  - intros [= <-] _. left. repeat split.
  - intros [= <-] _. left. repeat split.
  - intros [= <-] _. left. repeat split.
Qed.

Lemma quiet_run_no_timer (acts : list Action) :
  forall w w' : @World ActionConfig,
    run acts w = Some w' -> Forall quiet acts -> timers w = [] ->
    same_taps w w'.
Proof.
  induction acts as [|a rest IH]; cbn [run]; intros w w'.
  - intros [= <-] _ _. apply same_taps_refl.
  - destruct (step a w) as [wa|] eqn:Hs; [|discriminate].
    intros Hr Hq Hts. inversion Hq as [|? ? Hqa Hqr]; subst.
    destruct (quiet_step _ _ _ Hs Hqa) as [Hsame|[id ->]].
    + apply (same_taps_trans w wa w'); [assumption|].
      apply IH; auto. destruct Hsame as [Ht _]. congruence.
    + cbn [step] in Hs. unfold fire_timer, pending in Hs.
      rewrite Hts in Hs. discriminate.
Qed.

(** With one timeout pending, a run without touch releases either leaves it
    pending, or has run it, once and not before it was due. *)
Lemma quiet_run_single_timer (acts : list Action) :
  forall (w w' : @World ActionConfig) t,
    run acts w = Some w' -> Forall quiet acts ->
    one_pending w -> timers w = [t] ->
    same_taps w w'
    \/ exists fired_at,
         due t <= fired_at <= now w'
         /\ log w' = log w
              ++ [{| at_ms := fired_at; gesture := tap;
                     dispatched :=
                       option_map hass_action (tap_action (_config (pad w))) |}]
         /\ timers w' = []
         /\ _config (pad w') = _config (pad w)
         /\ _lastTouch (pad w') = _lastTouch (pad w).
Proof.
  induction acts as [|a rest IH]; cbn [run]; intros w w' t.
  - intros [= <-] _ _ _. left. apply same_taps_refl.
  - destruct (step a w) as [wa|] eqn:Hs; [|discriminate].
    intros Hr Hq Hone Hts. inversion Hq as [|? ? Hqa Hqr]; subst.
    destruct (quiet_step _ _ _ Hs Hqa) as [Hsame|[id ->]].
    + assert (Hone' : one_pending wa) by eauto using one_pending_same.
      destruct Hsame as (Ht & Hl & Hn & Hlt & Hto & Hc).
      destruct (IH wa w' t Hr Hqr Hone') as [Hs'|(f & Hf & Hlog & Hnil & Hc' & Hlt')].
      * congruence.
      * left. apply (same_taps_trans w wa w'); [repeat split; assumption|assumption].
      * right. exists f. rewrite Hlog, Hl, Hc. repeat split; try tauto; congruence.
    + cbn [step] in Hs.
      destruct (fire_timer_spec _ _ _ Hs Hone)
        as (t' & Hts' & Hid & Hdue & Hnil & Hlog & Hpad & Hnh & Hnow).
      assert (t' = t) by congruence. subst t'.
      pose proof (quiet_run_no_timer rest wa w' Hr Hqr Hnil)
        as (Ht & Hl & Hn & Hlt & Hto & Hc).
      pose proof (run_now_mono rest wa w' Hr) as Hmono.
      right. exists (now w). rewrite Hl, Hlog, Hc, Hlt, Hpad.
      repeat split; try lia; congruence.
Qed.


(** ** Taps *)

Lemma tap_release (event : PointerEvent) (w : @World ActionConfig) :
  qualifying_tap event w -> _handleEnd event w = tap_branch (recentred w).
Proof.
  intros (Ht & x0 & y0 & Hx & Hy & H1 & H2).
  rewrite (handleEnd_touch event w x0 y0 Ht Hx Hy).
  apply Qltb_lt in H1, H2. now rewrite H1, H2.
Qed.

Lemma tap_release_fresh (event : PointerEvent) (w : @World ActionConfig) :
  qualifying_tap event w -> one_pending w ->
  (forall last, _lastTouch (pad w) = Some last ->
                tap_timeout (_config (pad w)) <= now w - last) ->
  let w1 := _handleEnd event w in
  log w1 = log w
  /\ timers w1
     = [{| handle := next_handle w;
           due := now w + Z.max 0 (tap_timeout (_config (pad w))) |}]
  /\ _lastTouch (pad w1) = Some (now w)
  /\ _config (pad w1) = _config (pad w)
  /\ now w1 = now w.
Proof.
  intros Hq Hone Hfresh w1. subst w1. rewrite (tap_release _ _ Hq).
  assert (Hr : recent_tap (recentred w) = false).
  { unfold recent_tap. cbn [recentred pad with_pad _lastTouch set_circle
                             set_mouseDown _config now].
    destruct (_lastTouch (pad w)) as [last|] eqn:E; [|reflexivity].
    apply Z.ltb_ge. now apply Hfresh. }
  rewrite (tap_branch_fresh _ Hr). cbv zeta.
  cbn [log timers pad _lastTouch _config now set_lastTouch set_timeout].
  assert (Hc : timers (clearTimeout (_timeout (pad (recentred w))) (recentred w)) = []).
  { apply clearTimeout_own. exact Hone. }
  rewrite Hc. repeat split.
Qed.

Lemma tap_release_recent (event : PointerEvent) (w : @World ActionConfig) (last : Z) :
  qualifying_tap event w -> one_pending w ->
  _lastTouch (pad w) = Some last ->
  now w - last < tap_timeout (_config (pad w)) ->
  let w1 := _handleEnd event w in
  log w1 = log w ++ [call_of w double_tap]
  /\ timers w1 = []
  /\ _lastTouch (pad w1) = Some (now w)
  /\ _config (pad w1) = _config (pad w)
  /\ now w1 = now w.
Proof.
  intros Hq Hone Hlast Hlt w1. subst w1. rewrite (tap_release _ _ Hq).
  assert (Hr : recent_tap (recentred w) = true).
  { unfold recent_tap. cbn [recentred pad with_pad _lastTouch set_circle
                             set_mouseDown _config now].
    rewrite Hlast. now apply Z.ltb_lt. }
  split.
  { rewrite tap_branch_log, Hr. reflexivity. }
  rewrite (tap_branch_recent _ Hr).
  cbn [timers pad with_pad _lastTouch _config now set_lastTouch].
  rewrite fireEvent_eq. cbn [timers with_log now].
  split; [apply clearTimeout_own; exact Hone|].
  repeat split.
  apply (clearTimeout_frame (_timeout (pad (recentred w))) (recentred w)).
Qed.

(** After a qualifying tap, a second one that comes before [tap_timeout]
    has passed is answered by [double_tap] at once, and nothing is left
    pending. *)
Lemma second_tap_doubles
  (e1 e2 : PointerEvent) (w0 w1' : @World ActionConfig) (acts : list Action) :
  one_pending w0 ->
  qualifying_tap e1 w0 ->
  run acts (_handleEnd e1 w0) = Some w1' ->
  Forall quiet acts ->
  qualifying_tap e2 w1' ->
  now w1' - now w0 < tap_timeout (_config (pad w0)) ->
  let w1 := _handleEnd e1 w0 in
  let w2 := _handleEnd e2 w1' in
  log w1' = log w1
  /\ log w2 = log w1 ++ [call_of w1' double_tap]
  /\ timers w2 = []
  /\ one_pending w2
  /\ _lastTouch (pad w2) = Some (now w1')
  /\ _config (pad w2) = _config (pad w0)
  /\ now w2 = now w1'
  /\ _config (pad w1') = _config (pad w0).
Proof.
  intros Hone Hq1 Hrun Hquiet Hq2 Hclose w1 w2.
  assert (Hone1 : one_pending w1) by now apply handleEnd_one_pending.
  assert (Hone1' : one_pending w1') by eauto using run_one_pending.
  assert (Hfacts : _lastTouch (pad w1) = Some (now w0)
                   /\ _config (pad w1) = _config (pad w0)
                   /\ now w1 = now w0
                   /\ (timers w1 = []
                       \/ exists t, timers w1 = [t]
                                    /\ now w0 + tap_timeout (_config (pad w0)) <= due t)).
  { destruct (recent_tap (recentred w0)) eqn:Hr.
    - unfold recent_tap in Hr.
      cbn [recentred pad with_pad _lastTouch set_circle set_mouseDown
           _config now] in Hr.
      destruct (_lastTouch (pad w0)) as [last|] eqn:El; [|discriminate].
      apply Z.ltb_lt in Hr.
      destruct (tap_release_recent e1 w0 last Hq1 Hone El Hr)
        as (_ & Ht & Hl & Hc & Hn).
      repeat split; auto.
    - unfold recent_tap in Hr.
      cbn [recentred pad with_pad _lastTouch set_circle set_mouseDown
           _config now] in Hr.
      assert (Hfresh : forall last, _lastTouch (pad w0) = Some last ->
                         tap_timeout (_config (pad w0)) <= now w0 - last).
      { intros last El. rewrite El in Hr. now apply Z.ltb_ge. }
      destruct (tap_release_fresh e1 w0 Hq1 Hone Hfresh)
        as (_ & Ht & Hl & Hc & Hn).
      repeat split; auto. right. eexists. split; [exact Ht|]. cbn. lia. }
  destruct Hfacts as (Hl1 & Hc1 & Hn1 & Hts1).
  assert (Hsame : same_taps w1 w1').
  { destruct Hts1 as [Hnil|(t & Ht & Hdue)].
    - eapply quiet_run_no_timer; eauto.
    - destruct (quiet_run_single_timer acts w1 w1' t Hrun Hquiet Hone1 Ht)
        as [Hs|(f & Hf & _)]; [assumption|lia]. }
  destruct Hsame as (Hts & Hlog & Hnh & Hlt & Hto & Hc).
  assert (Hlast : _lastTouch (pad w1') = Some (now w0)) by congruence.
  assert (Hlt' : now w1' - now w0 < tap_timeout (_config (pad w1')))
    by (rewrite Hc, Hc1; assumption).
  destruct (tap_release_recent e2 w1' (now w0) Hq2 Hone1' Hlast Hlt')
    as (Hlog2 & Ht2 & Hl2 & Hc2 & Hn2).
  fold w2 in Hlog2, Ht2, Hl2, Hc2, Hn2.
  repeat split; auto.
  - congruence.
  - unfold one_pending. now rewrite Ht2.
  - congruence.
  - congruence.
Qed.


(** X16: a double tap by touch. At most one timeout is pending in every
    reachable state. When two qualifying touch releases are less than
    [tap_timeout] apart (with no other touch release between them), nothing
    fires between the
    two, the second fires [double_tap] at once, and no timeout is pending
    afterwards: the [tap] the first one had deferred is cancelled before it
    runs, and the first release itself fired no [tap] either. *)
Theorem double_tap_cancels_deferred_tap :
  (forall w : @World ActionConfig, reachable w -> (List.length (timers w) <= 1)%nat)
  /\ forall (e1 e2 : PointerEvent) (w0 w1' : @World ActionConfig) (acts : list Action),
       one_pending w0 ->
       qualifying_tap e1 w0 ->
       run acts (_handleEnd e1 w0) = Some w1' ->
       Forall quiet acts ->
       qualifying_tap e2 w1' ->
       now w1' - now w0 < tap_timeout (_config (pad w0)) ->
       let w1 := _handleEnd e1 w0 in
       let w2 := _handleEnd e2 w1' in
       (log w1 = log w0 \/ log w1 = log w0 ++ [call_of w0 double_tap])
       /\ log w1' = log w1
       /\ log w2 = log w1 ++ [call_of w1' double_tap]
       /\ timers w2 = []
       /\ forall id, fire_timer id w2 = None.
Proof.
  split.
  - intros w Hr. now apply one_pending_length, reachable_one_pending.
  - intros e1 e2 w0 w1' acts Hone Hq1 Hrun Hquiet Hq2 Hclose w1 w2.
    destruct (second_tap_doubles e1 e2 w0 w1' acts Hone Hq1 Hrun Hquiet Hq2 Hclose)
      as (Hbetween & Hlog2 & Hnil & _).
    fold w1 w2 in Hbetween, Hlog2, Hnil.
    repeat split; try assumption.
    + unfold w1. rewrite (tap_release _ _ Hq1), tap_branch_log.
      change (log (recentred w0)) with (log w0).
      destruct (recent_tap (recentred w0)); [right|left].
      * reflexivity.
      * apply app_nil_r.
    + intros id. unfold fire_timer, pending. now rewrite Hnil.
Qed.

(** C9: the tap branch records the time of every qualifying release, on
    the double-tap path as on the deferred path. Hence, of three qualifying
    releases each less than [tap_timeout] after the one before (the first
    with no tap shortly before it), the second and the third each fire
    [double_tap] at once, and no [tap] is fired or left pending. *)
Theorem lastTouch_always_updated :
  (forall (event : PointerEvent) (w : @World ActionConfig),
      qualifying_tap event w ->
      _lastTouch (pad (_handleEnd event w)) = Some (now w))
  /\ forall (e1 e2 e3 : PointerEvent) (w0 w1' w2' : @World ActionConfig)
            (acts1 acts2 : list Action),
       one_pending w0 ->
       (forall last, _lastTouch (pad w0) = Some last ->
                     tap_timeout (_config (pad w0)) <= now w0 - last) ->
       qualifying_tap e1 w0 ->
       run acts1 (_handleEnd e1 w0) = Some w1' -> Forall quiet acts1 ->
       qualifying_tap e2 w1' ->
       now w1' - now w0 < tap_timeout (_config (pad w0)) ->
       run acts2 (_handleEnd e2 w1') = Some w2' -> Forall quiet acts2 ->
       qualifying_tap e3 w2' ->
       now w2' - now w1' < tap_timeout (_config (pad w0)) ->
       let w3 := _handleEnd e3 w2' in
       log w3 = log w0 ++ [call_of w1' double_tap; call_of w2' double_tap]
       /\ gestures (log w3) = gestures (log w0) ++ [double_tap; double_tap]
       /\ timers w3 = [].
Proof.
  split.
  - intros event w Hq. rewrite (tap_release _ _ Hq).
    destruct (recent_tap (recentred w)) eqn:Hr.
    + now rewrite (tap_branch_recent _ Hr).
    + now rewrite (tap_branch_fresh _ Hr).
  - intros e1 e2 e3 w0 w1' w2' acts1 acts2 Hone Hfresh Hq1 Hrun1 Hquiet1
           Hq2 Hclose1 Hrun2 Hquiet2 Hq3 Hclose2 w3.
    destruct (tap_release_fresh e1 w0 Hq1 Hone Hfresh) as (Hlog1 & _).
    destruct (second_tap_doubles e1 e2 w0 w1' acts1 Hone Hq1 Hrun1 Hquiet1
                                 Hq2 Hclose1)
      as (_ & Hlog2 & _ & Hone2 & _ & Hc2 & Hn2 & Hc1').
    assert (Hone1' : one_pending w1').
    { eapply run_one_pending; [exact Hrun1|].
      now apply handleEnd_one_pending. }
    assert (Hclose2' : now w2' - now w1' < tap_timeout (_config (pad w1')))
      by now rewrite Hc1'.
    destruct (second_tap_doubles e2 e3 w1' w2' acts2 Hone1' Hq2 Hrun2 Hquiet2
                                 Hq3 Hclose2')
      as (_ & Hlog3 & Hnil & _).
    fold w3 in Hlog3, Hnil.
    assert (Hlog : log w3
                   = log w0 ++ [call_of w1' double_tap; call_of w2' double_tap]).
    { rewrite Hlog3, Hlog2, Hlog1, <- app_assoc. reflexivity. }
    split; [assumption|]. split; [|assumption].
    rewrite Hlog. unfold gestures. rewrite map_app. reflexivity.
Qed.


(** ** The cursor *)

Lemma max_min_clamped (m raw : Q) : clamped m raw (Qmax (Qmin raw m) (- m)).
Proof.
  unfold clamped.
  destruct (Q.min_spec raw m) as [[H1 E1]|[H1 E1]];
    destruct (Q.max_spec (Qmin raw m) (- m)) as [[H2 E2]|[H2 E2]];
    rewrite E2; rewrite ?E1 in *; repeat split; intros; lra.
Qed.

Lemma handleEnd_restyled (s : Style) (event : PointerEvent) (w : @World ActionConfig) :
  _handleEnd event (with_pad (set_circle s (pad w)) w)
  = if isTouch event then _handleEnd event w
    else with_pad (set_circle s (pad (_handleEnd event w)))
                  (_handleEnd event w).
Proof.
  unfold _handleEnd.
  cbn [pad with_pad _mouseDown set_mouseDown set_circle JS.not _config
       _startX _startY].
  destruct (isTouch event); reflexivity.
Qed.

Lemma handleEnd_touch_outcomes (event : PointerEvent) (w : @World ActionConfig) :
  isTouch event = true ->
  _handleEnd event w = tap_branch (recentred w)
  \/ (exists g, _handleEnd event w = _fireEvent g (recentred w))
  \/ _handleEnd event w = recentred w.
Proof.
  intros Ht. unfold _handleEnd.
  cbn [pad with_pad _mouseDown set_mouseDown JS.not _config _startX _startY].
  rewrite Ht. cbn [negb andb].
  match goal with |- context [if ?b then _ else _] => destruct b end.
  { left; reflexivity. }
  match goal with |- context [if ?b then _ else _] => destruct b end.
  { right; left; eexists; reflexivity. }
  match goal with |- context [if ?b then _ else _] => destruct b end.
  { right; left; eexists; reflexivity. }
  right; right; reflexivity.
Qed.

Lemma touch_release_recentres (event : PointerEvent) (w : @World ActionConfig) :
  isTouch event = true ->
  _circle (pad (_handleEnd event w))
  = {| transition := TransitionReturn;
       style_left := InsetCenter; style_top := InsetCenter |}.
Proof.
  intros Ht.
  destruct (handleEnd_touch_outcomes event w Ht) as [E|[[g E]|E]]; rewrite E.
  - destruct (recent_tap (recentred w)) eqn:Hr.
    + now rewrite (tap_branch_recent _ Hr).
    + now rewrite (tap_branch_fresh _ Hr).
  - now rewrite fireEvent_eq.
  - reflexivity.
Qed.

(** C5 (as amended): the cursor offset. A move that passes the guard sets
    [left] and [top] to the displacement from the recorded origin, clamped
    on each axis to plus or minus half the difference between the pad's and
    the cursor's size, however large the displacement, as long as the
    cursor is not larger than the pad on that axis; when it is larger, the
    offset is the constant [-(W - w) / 2]. The move leaves the recorded
    origin alone, so a later release fires the same gestures and leaves the
    same timers as it would have without the move. *)
Theorem cursor_offset_clamped
  (event : PointerEvent) (w : @World ActionConfig) (x0 y0 : Q) :
  isTouch event = true \/ _mouseDown (pad w) = Some true ->
  _startX (pad w) = Some x0 ->
  _startY (pad w) = Some y0 ->
  let maxDeltaX :=
    maxDelta (offsetWidth (layout w)) (circle_offsetWidth (layout w)) in
  let maxDeltaY :=
    maxDelta (offsetHeight (layout w)) (circle_offsetHeight (layout w)) in
  let w' := _handleMove event w in
  (exists l t,
      style_left (_circle (pad w')) = InsetCalc (Some l)
      /\ style_top (_circle (pad w')) = InsetCalc (Some t)
      /\ clamped maxDeltaX (clientX event - x0) l
      /\ clamped maxDeltaY (clientY event - y0) t)
  /\ _startX (pad w') = Some x0
  /\ _startY (pad w') = Some y0
  /\ forall release,
       log (_handleEnd release w') = log (_handleEnd release w)
       /\ timers (_handleEnd release w') = timers (_handleEnd release w)
       /\ _lastTouch (pad (_handleEnd release w'))
          = _lastTouch (pad (_handleEnd release w)).
Proof.
  intros Hguard Hx Hy maxDeltaX maxDeltaY w'.
  assert (Hgo : negb (isTouch event) && JS.not (_mouseDown (pad w)) = false).
  { destruct Hguard as [->| ->]; [reflexivity|apply andb_false_r]. }
  assert (Hw' : w' = with_pad
                       (set_circle
                          {| transition := transition (_circle (pad w));
                             style_left :=
                               InsetCalc (Some (Qmax (Qmin (clientX event - x0) maxDeltaX)
                                                     (- maxDeltaX)));
                             style_top :=
                               InsetCalc (Some (Qmax (Qmin (clientY event - y0) maxDeltaY)
                                                     (- maxDeltaY))) |}
                          (pad w)) w).
  { unfold w', _handleMove. rewrite Hgo, Hx, Hy. reflexivity. }
  rewrite Hw'. split; [|split; [assumption|split; [assumption|]]].
  - do 2 eexists. split; [reflexivity|]. split; [reflexivity|].
    split; apply max_min_clamped.
  - intros release. rewrite handleEnd_restyled.
    destruct (isTouch release); repeat split.
Qed.


(** ** Teardown *)

(** C8 (as amended): [disconnectedCallback] unregisters the listeners and
    does nothing else. Input events no longer reach the handlers, but a
    timeout that was pending stays pending and runs as it would have
    without the teardown: its [tap] is still fired. *)
Theorem teardown_only_unregisters (w : @World ActionConfig) :
  let w' := disconnectedCallback w in
  timers w' = timers w
  /\ pad w' = pad w
  /\ log w' = log w
  /\ now w' = now w
  /\ listening w' = false
  /\ (forall l event, step (Input l event) w' = Some w')
  /\ (forall id,
        fire_timer id w' = option_map disconnectedCallback (fire_timer id w))
  /\ (forall id w2,
        one_pending w -> fire_timer id w = Some w2 ->
        fire_timer id w' = Some (disconnectedCallback w2)
        /\ log (disconnectedCallback w2) = log w ++ [call_of w tap]).
Proof.
  intros w'.
  assert (Hfire : forall id,
             fire_timer id w'
             = option_map disconnectedCallback (fire_timer id w)).
  { intros id. unfold w', fire_timer, pending, disconnectedCallback.
    cbn [timers with_listening now].
    destruct (find (fun t => handle t =? id) (timers w)) as [t|];
      [|reflexivity].
    destruct (due t <=? now w); [|reflexivity].
    cbn [option_map]. f_equal.
    unfold deferred_tap. rewrite !fireEvent_eq.
    cbn [clearTimeout with_timers with_log pad timers log with_listening].
    destruct (_timeout (pad w)); reflexivity. }
  assert (Hlater : forall id w2,
             one_pending w -> fire_timer id w = Some w2 ->
             fire_timer id w' = Some (disconnectedCallback w2)
             /\ log (disconnectedCallback w2) = log w ++ [call_of w tap]).
  { intros id w2 Hone Hf. split.
    - now rewrite Hfire, Hf.
    - now destruct (fire_timer_spec _ _ _ Hf Hone)
        as (t & _ & _ & _ & _ & Hlog & _). }
  do 5 (split; [reflexivity|]).
  split; [intros; reflexivity|].
  split; [exact Hfire | exact Hlater].
Qed.


(** ** Further properties of the handlers *)

(** A release, by the branch it takes. *)
Lemma handleEnd_cases (event : PointerEvent) (w : @World ActionConfig) :
  (isTouch event = false
   /\ _handleEnd event w = with_pad (set_mouseDown false (pad w)) w)
  \/ (isTouch event = true /\ tap_test event w = true
      /\ _handleEnd event w = tap_branch (recentred w))
  \/ (isTouch event = true /\ tap_test event w = false
      /\ ((exists g, is_swipe g /\ _handleEnd event w = _fireEvent g (recentred w))
          \/ _handleEnd event w = recentred w)).
Proof.
  unfold _handleEnd, tap_test.
  cbn [pad with_pad _mouseDown set_mouseDown JS.not _config _startX _startY].
  destruct (isTouch event); cbn [negb andb]; [right|left; now split].
  match goal with |- context [if ?b then _ else _] => destruct b end.
  { left. repeat split. }
  right. split; [reflexivity|]. split; [reflexivity|].
  match goal with |- context [if ?b then _ else _] => destruct b end.
  { left. eexists. split; [|reflexivity].
    match goal with |- context [if ?b then _ else _] => destruct b end;
      exact I. }
  match goal with |- context [if ?b then _ else _] => destruct b end.
  { left. eexists. split; [|reflexivity].
    match goal with |- context [if ?b then _ else _] => destruct b end;
      exact I. }
  right. reflexivity.
Qed.

Lemma tap_branch_frame (w : @World ActionConfig) :
  _startX (pad (tap_branch w)) = _startX (pad w)
  /\ _startY (pad (tap_branch w)) = _startY (pad w)
  /\ _config (pad (tap_branch w)) = _config (pad w)
  /\ _mouseDown (pad (tap_branch w)) = _mouseDown (pad w)
  /\ _circle (pad (tap_branch w)) = _circle (pad w)
  /\ listening (tap_branch w) = listening w
  /\ layout (tap_branch w) = layout w.
Proof.
  destruct (recent_tap w) eqn:Hr.
  - rewrite (tap_branch_recent _ Hr).
    cbn [pad with_pad set_lastTouch _startX _startY _config _mouseDown
         _circle listening layout].
    rewrite fireEvent_eq. cbn [listening layout with_log].
    destruct (clearTimeout_frame (_timeout (pad w)) w)
      as (_ & _ & _ & _ & Hli & Hla).
    now rewrite Hli, Hla.
  - rewrite (tap_branch_fresh _ Hr). repeat split.
Qed.

Lemma handleEnd_clears_flag (event : PointerEvent) (w : @World ActionConfig) :
  _mouseDown (pad (_handleEnd event w)) = Some false.
Proof.
  destruct (handleEnd_cases event w)
    as [[_ E]|[(_ & _ & E)|(_ & _ & [(g & _ & E)|E])]]; rewrite E.
  - reflexivity.
  - now rewrite (proj1 (proj2 (proj2 (proj2 (tap_branch_frame _))))).
  - now rewrite fireEvent_eq.
  - reflexivity.
Qed.

(** X2: when a mouse move counts. A mouse move changes nothing unless the
    mouse flag is set: nothing before the first press, nothing after a touch
    press, nothing after any release (touch or mouse). Right after a mouse
    press it is processed: the cursor is set to the clamped displacement from
    the press point. *)
Theorem mouse_move_needs_mouse_press
  (move : PointerEvent) (w : @World ActionConfig) :
  isTouch move = false ->
  (_mouseDown (pad w) <> Some true -> _handleMove move w = w)
  /\ (forall c l t0,
        _handleMove move (@initial ActionConfig c l t0) = initial c l t0)
  /\ (forall press, isTouch press = true ->
        _handleMove move (_handleStart press w) = _handleStart press w)
  /\ (forall release,
        _handleMove move (_handleEnd release w) = _handleEnd release w)
  /\ (forall press, isTouch press = false ->
        let w' := _handleMove move (_handleStart press w) in
        style_left (_circle (pad w'))
        = InsetCalc
            (Some (offset_of (maxDelta (offsetWidth (layout w))
                                       (circle_offsetWidth (layout w)))
                             (clientX move - clientX press)))
        /\ style_top (_circle (pad w'))
           = InsetCalc
               (Some (offset_of (maxDelta (offsetHeight (layout w))
                                          (circle_offsetHeight (layout w)))
                                (clientY move - clientY press)))).
Proof.
  intros Hm.
  assert (Hskip : forall x : @World ActionConfig,
             _mouseDown (pad x) <> Some true -> _handleMove move x = x).
  { intros x Hx. unfold _handleMove. rewrite Hm.
    destruct (_mouseDown (pad x)) as [[|]|]; [congruence|reflexivity|reflexivity]. }
  split; [apply Hskip|]. split; [|split; [|split]].
  - intros c l t0. apply Hskip. discriminate.
  - intros press Hp. apply Hskip.
    cbn [_handleStart pad with_pad set_circle set_start set_mouseDown _mouseDown].
    rewrite Hp. discriminate.
  - intros release. apply Hskip. rewrite handleEnd_clears_flag. discriminate.
  - intros press Hp w'. unfold w', _handleMove.
    cbn [_handleStart pad with_pad set_circle set_start set_mouseDown
         _mouseDown _startX _startY layout].
    rewrite Hm, Hp. split; reflexivity.
Qed.

(** X3: a release with no origin. While no press has recorded an origin (on
    either axis), the displacement is not a number and every comparison
    fails: the release fires nothing and touches neither the timers nor the
    tap history; a touch release still recentres the cursor. *)
Theorem release_without_origin_is_silent
  (event : PointerEvent) (w : @World ActionConfig) :
  _startX (pad w) = None \/ _startY (pad w) = None ->
  log (_handleEnd event w) = log w
  /\ timers (_handleEnd event w) = timers w
  /\ _lastTouch (pad (_handleEnd event w)) = _lastTouch (pad w)
  /\ _timeout (pad (_handleEnd event w)) = _timeout (pad w)
  /\ (isTouch event = true ->
      _circle (pad (_handleEnd event w))
      = {| transition := TransitionReturn;
           style_left := InsetCenter; style_top := InsetCenter |}).
Proof.
  intros Hno. unfold _handleEnd.
  cbn [pad with_pad _mouseDown set_mouseDown JS.not _config _startX _startY].
  destruct (isTouch event); cbn [negb andb];
    [|repeat split; intros; discriminate].
  destruct (_startX (pad w)) as [x0|], (_startY (pad w)) as [y0|];
    try (destruct Hno; discriminate);
    cbn [JS.sub JS.abs JS.lt JS.gt option_map andb];
    rewrite ?andb_false_r; cbn [andb]; repeat split.
Qed.

(** X4: what a release can and cannot do. A release appends at most one call
    to the log, and never [tap] (a [tap] only ever comes from the timeout).
    It keeps the recorded origin, the configuration and the clock, and clears
    the mouse flag. Unless it is a touch release that passes the tap test, it
    also leaves the timers and the tap history alone. *)
Theorem release_fires_at_most_once
  (event : PointerEvent) (w : @World ActionConfig) :
  (log (_handleEnd event w) = log w
   \/ exists g, g <> tap
                /\ log (_handleEnd event w) = log w ++ [call_of w g])
  /\ _startX (pad (_handleEnd event w)) = _startX (pad w)
  /\ _startY (pad (_handleEnd event w)) = _startY (pad w)
  /\ _config (pad (_handleEnd event w)) = _config (pad w)
  /\ now (_handleEnd event w) = now w
  /\ _mouseDown (pad (_handleEnd event w)) = Some false
  /\ (isTouch event = false \/ tap_test event w = false ->
      timers (_handleEnd event w) = timers w
      /\ _lastTouch (pad (_handleEnd event w)) = _lastTouch (pad w)
      /\ _timeout (pad (_handleEnd event w)) = _timeout (pad w)).
Proof.
  assert (Hrest :
    (log (_handleEnd event w) = log w
     \/ exists g, g <> tap
                  /\ log (_handleEnd event w) = log w ++ [call_of w g])
    /\ _startX (pad (_handleEnd event w)) = _startX (pad w)
    /\ _startY (pad (_handleEnd event w)) = _startY (pad w)
    /\ _config (pad (_handleEnd event w)) = _config (pad w)
    /\ (isTouch event = false \/ tap_test event w = false ->
        timers (_handleEnd event w) = timers w
        /\ _lastTouch (pad (_handleEnd event w)) = _lastTouch (pad w)
        /\ _timeout (pad (_handleEnd event w)) = _timeout (pad w))).
  { destruct (handleEnd_cases event w)
      as [[Hm E]|[(Ht & Hy & E)|(Ht & Hn & [(g & Hg & E)|E])]]; rewrite E.
    - split; [now left|]. repeat split.
    - destruct (tap_branch_frame (recentred w)) as (H1 & H2 & H3 & _).
      split; [|split; [exact H1|split; [exact H2|split; [exact H3|]]]].
      + rewrite tap_branch_log. change (log (recentred w)) with (log w).
        destruct (recent_tap (recentred w)).
        * right. exists double_tap. split; [discriminate|reflexivity].
        * left. apply app_nil_r.
      + intros [H|H]; congruence.
    - rewrite fireEvent_eq. split; [|repeat split].
      right. exists g. split; [|reflexivity].
      destruct g; try discriminate; contradiction.
    - split; [now left|]. repeat split. }
  destruct Hrest as (H1 & H2 & H3 & H4 & H5).
  split; [exact H1|]. split; [exact H2|]. split; [exact H3|].
  split; [exact H4|]. split; [apply handleEnd_now|].
  split; [apply handleEnd_clears_flag|exact H5].
Qed.


Lemma tap_test_nonpositive (event : PointerEvent) (w : @World ActionConfig) :
  (tap_threshold (_config (pad w)) <= 0)%Q -> tap_test event w = false.
Proof.
  intros Hth. unfold tap_test.
  assert (H : forall a : JS.number,
             JS.lt (JS.abs a) (Some (tap_threshold (_config (pad w)))) = false).
  { intros [x|]; cbn; [|reflexivity]. apply Qltb_ge.
    eapply Qle_trans; [exact Hth | apply Qabs_nonneg]. }
  now rewrite H.
Qed.

Lemma step_swipes_only (a : Action) (w w' : @World ActionConfig) :
  (tap_threshold (_config (pad w)) <= 0)%Q ->
  swipes_only w ->
  step a w = Some w' ->
  swipes_only w' /\ _config (pad w') = _config (pad w).
Proof.
  intros Hth (Hts & Hlt & Hlog).
  destruct a as [ms|l event|id|l| |]; cbn [step].
  - destruct (0 <=? ms); [|discriminate]. intros [= <-]. now repeat split.
  - destruct (listening w); intros [= <-]; [|now repeat split].
    destruct l; cbn [handler].
    + now repeat split.
    + destruct (handleMove_same_taps event w) as (H1 & H2 & _ & H3 & _ & H4).
      unfold swipes_only. rewrite H1, H2, H3, H4. now repeat split.
    + destruct (handleEnd_cases event w)
        as [[_ E]|[(_ & Hy & _)|(_ & _ & [(g & Hg & E)|E])]].
      * rewrite E. now repeat split.
      * rewrite (tap_test_nonpositive event w Hth) in Hy. discriminate.
      * rewrite E, fireEvent_eq. split; [|reflexivity].
        split; [exact Hts|]. split; [exact Hlt|].
        cbn [log with_log recentred with_pad].
        apply Forall_app. split; [exact Hlog|]. now constructor.
      * rewrite E. now repeat split.
  - unfold fire_timer, pending. rewrite Hts. discriminate.
  - intros [= <-]. now repeat split.
  - intros [= <-]. now repeat split.
  - intros [= <-]. now repeat split.
Qed.

(** X5: taps switched off. With [tap_threshold] at or below zero no
    displacement is ever below it: from the initial state on, no timeout is
    ever scheduled, no tap is ever recorded, and every gesture fired is one of
    the four swipes. *)
Theorem nonpositive_tap_threshold_disables_taps
  (c : @InternalConfig ActionConfig) (l : Layout) (t0 : Z)
  (acts : list Action) (w : @World ActionConfig) :
  (tap_threshold c <= 0)%Q ->
  run acts (initial c l t0) = Some w ->
  timers w = []
  /\ _lastTouch (pad w) = None
  /\ Forall (fun call => is_swipe (gesture call)) (log w).
Proof.
  intros Hth.
  assert (Hgen : forall acts (x x' : @World ActionConfig),
             _config (pad x) = c -> swipes_only x ->
             run acts x = Some x' -> swipes_only x').
  { clear acts w. induction acts as [|a rest IH]; cbn [run]; intros x x' Hc Hs.
    - now intros [= <-].
    - destruct (step a x) as [xa|] eqn:Hstep; [|discriminate].
      assert (Hth' : (tap_threshold (_config (pad x)) <= 0)%Q)
        by now rewrite Hc.
      destruct (step_swipes_only a x xa Hth' Hs Hstep) as [Hs' Hc'].
      apply IH; [congruence|exact Hs']. }
  intros Hrun. apply (Hgen acts (initial c l t0) w); auto.
  repeat split. constructor.
Qed.

(** X6: swipes when the thresholds are ordered. When [tap_threshold] does
    not exceed [swipe_threshold], a displacement that meets a swipe condition
    cannot lie in the tap region, so the swipe is fired with no further
    condition: [right] / [left] for the X axis, [down] / [up] for Y. *)
Theorem swipe_when_thresholds_ordered
  (event : PointerEvent) (w : @World ActionConfig) (x0 y0 : Q) :
  isTouch event = true ->
  _startX (pad w) = Some x0 ->
  _startY (pad w) = Some y0 ->
  (tap_threshold (_config (pad w)) <= swipe_threshold (_config (pad w)))%Q ->
  let c := _config (pad w) in
  let rawDeltaX := (clientX event - x0)%Q in
  let rawDeltaY := (clientY event - y0)%Q in
  let deltaX := Qabs rawDeltaX in
  let deltaY := Qabs rawDeltaY in
  let fires g := log (_handleEnd event w) = log w ++ [call_of w g] in
  ((deltaX > deltaY)%Q -> (deltaX > swipe_threshold c)%Q ->
     ((0 < rawDeltaX)%Q -> fires right) /\ ((rawDeltaX <= 0)%Q -> fires left))
  /\ ((deltaY > deltaX)%Q -> (deltaY > swipe_threshold c)%Q ->
     ((0 < rawDeltaY)%Q -> fires down) /\ ((rawDeltaY <= 0)%Q -> fires up)).
Proof.
  intros Ht Hx Hy Hord c rawDeltaX rawDeltaY deltaX deltaY fires.
  unfold fires. rewrite (handleEnd_touch event w x0 y0 Ht Hx Hy).
  fold c rawDeltaX rawDeltaY deltaX deltaY. fold c in Hord.
  split; intros Hgt Hsw; split; intros Hsign; split_tests;
    try (exfalso; lra); rewrite fireEvent_eq; reflexivity.
Qed.

(** X7: [setConfig]'s defaults. A configuration that gives no thresholds
    gets [swipe_threshold = 50] and [tap_threshold = 5], and the actions are
    the user's own: a touch release more than 50 px along the dominant axis
    fires the swipe of that direction and dispatches the action the user
    configured for it (nothing when there is none). *)
Theorem default_thresholds_swipe
  (config : @HaTouchPadConfig ActionConfig)
  (event : PointerEvent) (w : @World ActionConfig) (x0 y0 : Q) :
  _config (pad w) = setConfig config ->
  user_swipe_threshold config = None ->
  user_tap_threshold config = None ->
  isTouch event = true ->
  _startX (pad w) = Some x0 ->
  _startY (pad w) = Some y0 ->
  let rawDeltaX := (clientX event - x0)%Q in
  let rawDeltaY := (clientY event - y0)%Q in
  let deltaX := Qabs rawDeltaX in
  let deltaY := Qabs rawDeltaY in
  let fires g action :=
    log (_handleEnd event w)
    = log w ++ [{| at_ms := now w; gesture := g;
                   dispatched := option_map hass_action action |}] in
  ((deltaX > deltaY)%Q -> (deltaX > 50)%Q ->
     ((0 < rawDeltaX)%Q -> fires right (user_right_action config))
     /\ ((rawDeltaX <= 0)%Q -> fires left (user_left_action config)))
  /\ ((deltaY > deltaX)%Q -> (deltaY > 50)%Q ->
     ((0 < rawDeltaY)%Q -> fires down (user_down_action config))
     /\ ((rawDeltaY <= 0)%Q -> fires up (user_up_action config))).
Proof.
  intros Hc Hsw Htap Ht Hx Hy rawDeltaX rawDeltaY deltaX deltaY fires.
  unfold fires. rewrite (handleEnd_touch event w x0 y0 Ht Hx Hy).
  fold rawDeltaX rawDeltaY deltaX deltaY.
  assert (Hs : swipe_threshold (_config (pad w)) = 50%Q)
    by (rewrite Hc; cbn; now rewrite Hsw).
  assert (Hp : tap_threshold (_config (pad w)) = 5%Q)
    by (rewrite Hc; cbn; now rewrite Htap).
  rewrite Hs, Hp.
  split; intros Hgt Hbig; split; intros Hsign; split_tests;
    try (exfalso; lra); rewrite fireEvent_eq;
    cbn [log with_log recentred with_pad]; unfold call_of;
    cbn [pad now recentred with_pad _config set_circle set_mouseDown];
    rewrite Hc; reflexivity.
Qed.


Lemma handleMove_now (event : PointerEvent) (w : @World ActionConfig) :
  now (_handleMove event w) = now w.
Proof.
  unfold _handleMove.
  destruct (negb (isTouch event) && JS.not (_mouseDown (pad w))); reflexivity.
Qed.

Lemma pending_is_last_tap_frame (w w' : @World ActionConfig) :
  timers w' = timers w ->
  _lastTouch (pad w') = _lastTouch (pad w) ->
  _timeout (pad w') = _timeout (pad w) ->
  _config (pad w') = _config (pad w) ->
  now w <= now w' ->
  pending_is_last_tap w -> pending_is_last_tap w'.
Proof.
  unfold pending_is_last_tap. intros Ht Hl Hto Hc Hn [Hp Hpast].
  rewrite Ht, Hl, Hto, Hc. split; [exact Hp|].
  intros last E. specialize (Hpast last E). lia.
Qed.

Lemma pending_is_last_tap_same (w w' : @World ActionConfig) :
  same_taps w w' -> now w <= now w' ->
  pending_is_last_tap w -> pending_is_last_tap w'.
Proof.
  intros (Ht & _ & _ & Hl & Hto & Hc). now apply pending_is_last_tap_frame.
Qed.

Lemma tap_branch_pending_is_last_tap (w : @World ActionConfig) :
  one_pending w -> pending_is_last_tap (tap_branch w).
Proof.
  intros Hone. unfold pending_is_last_tap. rewrite tap_branch_now.
  destruct (recent_tap w) eqn:Hr.
  - rewrite (tap_branch_recent _ Hr).
    cbn [timers pad with_pad _lastTouch _timeout _config set_lastTouch].
    rewrite fireEvent_eq. cbn [timers with_log].
    rewrite (clearTimeout_own w Hone). split.
    + intros t [].
    + intros last [= <-]. lia.
  - rewrite (tap_branch_fresh _ Hr). cbv zeta.
    cbn [timers pad _lastTouch _timeout _config set_lastTouch set_timeout].
    rewrite (clearTimeout_own w Hone). split.
    + intros t [<-|[]]. cbn [handle due app]. split; [reflexivity|].
      exists (now w). split; reflexivity.
    + intros last [= <-]. lia.
Qed.

Lemma step_pending_is_last_tap (a : Action) (w w' : @World ActionConfig) :
  one_pending w -> pending_is_last_tap w ->
  step a w = Some w' -> pending_is_last_tap w'.
Proof.
  intros Hone Hp.
  destruct a as [ms|l event|id|l| |]; cbn [step].
  - destruct (0 <=? ms) eqn:E; [|discriminate]. intros [= <-].
    apply Z.leb_le in E.
    apply (pending_is_last_tap_same w); [repeat split|cbn; lia|exact Hp].
  - destruct (listening w); intros [= <-]; [|exact Hp].
    destruct l; cbn [handler].
    + apply (pending_is_last_tap_same w);
        [apply handleStart_same_taps|cbn; lia|exact Hp].
    + apply (pending_is_last_tap_same w);
        [apply handleMove_same_taps|rewrite handleMove_now; lia|exact Hp].
    + destruct (handleEnd_cases event w)
        as [[_ E]|[(_ & _ & E)|(_ & _ & [(g & _ & E)|E])]]; rewrite E.
      * apply (pending_is_last_tap_same w); [repeat split|cbn; lia|exact Hp].
      * apply tap_branch_pending_is_last_tap. exact Hone.
      * rewrite fireEvent_eq.
        apply (pending_is_last_tap_frame w);
          [reflexivity|reflexivity|reflexivity|reflexivity|cbn; lia|exact Hp].
      * apply (pending_is_last_tap_same w); [repeat split|cbn; lia|exact Hp].
  - intros Hf.
    destruct (fire_timer_spec _ _ _ Hf Hone)
      as (t & _ & _ & _ & Hnil & _ & Hpad & _ & Hnow).
    destruct Hp as [_ Hpast]. unfold pending_is_last_tap.
    rewrite Hnil, Hpad, Hnow. split; [intros ? []|exact Hpast].
  - intros [= <-]. exact Hp.
  - intros [= <-]. exact Hp.
  - intros [= <-]. exact Hp.
Qed.

(** X8: whose tap is pending. In every reachable state a pending timeout is
    the one [_timeout] names, and it is due exactly [tap_timeout] (0 if
    negative) after the latest qualifying release recorded in [_lastTouch];
    and [_lastTouch] is never later than the clock. *)
Theorem pending_tap_is_the_last_one (w : @World ActionConfig) :
  reachable w ->
  (forall t, In t (timers w) ->
     _timeout (pad w) = Some (handle t)
     /\ exists last,
          _lastTouch (pad w) = Some last
          /\ due t = last + Z.max 0 (tap_timeout (_config (pad w))))
  /\ (forall last, _lastTouch (pad w) = Some last -> last <= now w).
Proof.
  intros (c & l & t0 & acts & Hrun).
  assert (Hgen : forall acts (x x' : @World ActionConfig),
             one_pending x -> pending_is_last_tap x ->
             run acts x = Some x' -> pending_is_last_tap x').
  { clear. induction acts as [|a rest IH]; cbn [run]; intros x x' Hone Hp.
    - now intros [= <-].
    - destruct (step a x) as [xa|] eqn:Hstep; [|discriminate].
      apply IH; eauto using step_one_pending, step_pending_is_last_tap. }
  apply (Hgen acts (initial c l t0) w); [exact I| |exact Hrun].
  split; [intros t []|intros last; discriminate].
Qed.

(** X9: a tap, end to end. On a connected pad with a positive
    [tap_threshold] and no tap in the last [tap_timeout] milliseconds, a
    finger that goes down and comes up at the same point, followed by
    [tap_timeout] milliseconds of quiet, makes the timeout run: exactly one
    [tap] is added to the log, stamped [tap_timeout] after the release, it
    carries the configured tap action, and no timeout is left. *)
Theorem tap_end_to_end (x y : Q) (w : @World ActionConfig) :
  listening w = true ->
  one_pending w ->
  (0 < tap_threshold (_config (pad w)))%Q ->
  (forall last, _lastTouch (pad w) = Some last ->
                tap_timeout (_config (pad w)) <= now w - last) ->
  let wait := Z.max 0 (tap_timeout (_config (pad w))) in
  exists w',
    run [Input OnStart (touch x y); Input OnEnd (touch x y);
         Elapse wait; TimerFires (next_handle w)] w = Some w'
    /\ log w'
       = log w ++ [{| at_ms := now w + wait; gesture := tap;
                      dispatched :=
                        option_map hass_action (tap_action (_config (pad w))) |}]
    /\ timers w' = []
    /\ now w' = now w + wait.
Proof.
  intros Hli Hone Hth Hfresh wait.
  set (ws := _handleStart (touch x y) w).
  assert (Hq : qualifying_tap (touch x y) ws).
  { split; [reflexivity|]. exists x, y. repeat split.
    - apply Qabs_Qlt_condition. cbn [clientX touch].
      change (_config (pad ws)) with (_config (pad w)). split; lra.
    - apply Qabs_Qlt_condition. cbn [clientY touch].
      change (_config (pad ws)) with (_config (pad w)). split; lra. }
  assert (Hones : one_pending ws) by exact Hone.
  destruct (tap_release_fresh (touch x y) ws Hq Hones Hfresh)
    as (Hlog & Hts & _ & Hc & Hn).
  set (w1 := _handleEnd (touch x y) ws) in *.
  change (log ws) with (log w) in Hlog.
  change (next_handle ws) with (next_handle w) in Hts.
  change (now ws) with (now w) in Hts, Hn.
  change (_config (pad ws)) with (_config (pad w)) in Hts, Hc.
  fold wait in Hts.
  set (w2 := with_now (now w1 + wait) w1).
  assert (Hone2 : one_pending w2).
  { apply (one_pending_same w1); [repeat split|].
    now apply handleEnd_one_pending. }
  assert (Hfire : fire_timer (next_handle w) w2
                  = Some (deferred_tap (clearTimeout (Some (next_handle w)) w2))).
  { unfold fire_timer, pending. cbn [timers w2 with_now]. rewrite Hts.
    cbn [find handle]. rewrite Z.eqb_refl. cbn [due now w2 with_now].
    rewrite Hn, Z.leb_refl. reflexivity. }
  destruct (fire_timer_spec _ _ _ Hfire Hone2)
    as (t & _ & _ & _ & Hnil & Hlog3 & _ & _ & Hnow3).
  exists (deferred_tap (clearTimeout (Some (next_handle w)) w2)).
  split.
  - cbn [run step handler]. rewrite Hli.
    change (listening (_handleStart (touch x y) w)) with (listening w).
    rewrite Hli. fold ws. fold w1.
    assert (Hw : (0 <=? wait) = true) by (apply Z.leb_le; unfold wait; lia).
    rewrite Hw. fold w2. now rewrite Hfire.
  - split; [|split; [exact Hnil|]].
    + rewrite Hlog3. cbn [log w2 with_now]. rewrite Hlog.
      unfold call_of. cbn [now pad w2 with_now]. now rewrite Hn, Hc.
    + rewrite Hnow3. cbn [now w2 with_now]. now rewrite Hn.
Qed.

Lemma offset_of_bounded (m raw : Q) : (Qabs (offset_of m raw) <= Qabs m)%Q.
Proof.
  unfold offset_of.
  destruct (Q.min_spec raw m) as [[H1 E1]|[H1 E1]];
    destruct (Q.max_spec (Qmin raw m) (- m)) as [[H2 E2]|[H2 E2]];
    rewrite E2; rewrite ?E1 in *;
    try (rewrite Qabs_opp; apply Qle_refl);
    try apply Qle_refl.
  apply Qabs_Qle_condition. split.
  - apply Qle_trans with (- m)%Q; [|lra].
    apply Qopp_le_compat. apply Qle_Qabs.
  - apply Qle_trans with m; [lra|apply Qle_Qabs].
Qed.

Lemma offset_of_monotone (m raw raw' : Q) :
  (raw <= raw' -> offset_of m raw <= offset_of m raw')%Q.
Proof.
  intros H. unfold offset_of.
  apply Q.max_le_compat_r. now apply Q.min_le_compat_r.
Qed.

(** X11: the cursor never outruns its box. Whatever the layout (cursor
    smaller or larger than the pad), a processed move sets an offset whose
    size is at most [|W - w| / 2] on X and [|H - h| / 2] on Y, and moving
    the pointer further right (down) never moves the cursor left (up). The
    move keeps the transition as it was and leaves the timers, the log and
    the tap history alone. *)
Theorem cursor_offset_bounded_monotone
  (e1 e2 : PointerEvent) (w : @World ActionConfig) (x0 y0 : Q) :
  isTouch e1 = true \/ _mouseDown (pad w) = Some true ->
  isTouch e2 = true \/ _mouseDown (pad w) = Some true ->
  _startX (pad w) = Some x0 ->
  _startY (pad w) = Some y0 ->
  let maxDeltaX :=
    maxDelta (offsetWidth (layout w)) (circle_offsetWidth (layout w)) in
  let maxDeltaY :=
    maxDelta (offsetHeight (layout w)) (circle_offsetHeight (layout w)) in
  exists l1 t1 l2 t2,
    _circle (pad (_handleMove e1 w))
    = {| transition := transition (_circle (pad w));
         style_left := InsetCalc (Some l1);
         style_top := InsetCalc (Some t1) |}
    /\ _circle (pad (_handleMove e2 w))
       = {| transition := transition (_circle (pad w));
            style_left := InsetCalc (Some l2);
            style_top := InsetCalc (Some t2) |}
    /\ (Qabs l1 <= Qabs maxDeltaX)%Q /\ (Qabs t1 <= Qabs maxDeltaY)%Q
    /\ ((clientX e1 <= clientX e2)%Q -> (l1 <= l2)%Q)
    /\ ((clientY e1 <= clientY e2)%Q -> (t1 <= t2)%Q)
    /\ timers (_handleMove e1 w) = timers w
    /\ log (_handleMove e1 w) = log w
    /\ _lastTouch (pad (_handleMove e1 w)) = _lastTouch (pad w).
Proof.
  intros Hg1 Hg2 Hx Hy maxDeltaX maxDeltaY.
  assert (Hgo : forall e, isTouch e = true \/ _mouseDown (pad w) = Some true ->
             negb (isTouch e) && JS.not (_mouseDown (pad w)) = false).
  { intros e [->| ->]; [reflexivity|apply andb_false_r]. }
  exists (offset_of maxDeltaX (clientX e1 - x0)),
         (offset_of maxDeltaY (clientY e1 - y0)),
         (offset_of maxDeltaX (clientX e2 - x0)),
         (offset_of maxDeltaY (clientY e2 - y0)).
  unfold _handleMove. rewrite (Hgo e1 Hg1), (Hgo e2 Hg2), Hx, Hy.
  split; [reflexivity|]. split; [reflexivity|].
  split; [apply offset_of_bounded|]. split; [apply offset_of_bounded|].
  split; [intros H; apply offset_of_monotone; lra|].
  split; [intros H; apply offset_of_monotone; lra|].
  repeat split.
Qed.


(** ** Taps among other gestures *)

Lemma tapless_step (a : Action) (w w' : @World ActionConfig) :
  step a w = Some w' ->
  tapless [a] w ->
  (timers w' = timers w
   /\ _lastTouch (pad w') = _lastTouch (pad w)
   /\ _timeout (pad w') = _timeout (pad w)
   /\ _config (pad w') = _config (pad w)
   /\ (log w' = log w
       \/ exists g, is_swipe g /\ log w' = log w ++ [call_of w g]))
  \/ exists id, a = TimerFires id.
Proof.
  destruct a as [ms|l event|id|l| |]; cbn [step tapless].
  - destruct (0 <=? ms); [|discriminate]. intros [= <-] _. left.
    repeat split. now left.
  - destruct (listening w) eqn:Hli; intros [= <-] [Hq _]; left;
      [|repeat split; now left].
    destruct l; cbn [handler].
    + repeat split. now left.
    + destruct (handleMove_same_taps event w) as (H1 & H2 & _ & H3 & H4 & H5).
      repeat split; auto.
    + destruct (handleEnd_cases event w)
        as [[_ E]|[(Ht & Hy & _)|(_ & _ & [(g & Hg & E)|E])]].
      * rewrite E. repeat split. now left.
      * rewrite (Hq eq_refl Ht) in Hy. discriminate.
      * rewrite E, fireEvent_eq. repeat split. right. now exists g.
      * rewrite E. repeat split. now left.
  - intros _ _. right. now exists id.
  - intros [= <-] _. left. repeat split. now left.
  - intros [= <-] _. left. repeat split. now left.
  - intros [= <-] _. left. repeat split. now left.
Qed.

Lemma tapless_run_before_due (acts : list Action) :
  forall w w' : @World ActionConfig,
    run acts w = Some w' -> tapless acts w ->
    (forall t, In t (timers w) -> now w' < due t) ->
    timers w' = timers w
    /\ _lastTouch (pad w') = _lastTouch (pad w)
    /\ _timeout (pad w') = _timeout (pad w)
    /\ _config (pad w') = _config (pad w)
    /\ exists fired,
         log w' = log w ++ fired
         /\ Forall (fun call => is_swipe (gesture call)) fired.
Proof.
  induction acts as [|a rest IH]; cbn [run]; intros w w'.
  - intros [= <-] _ _. repeat split. exists []. split; [|constructor].
    now rewrite app_nil_r.
  - destruct (step a w) as [wa|] eqn:Hs; [|discriminate].
    intros Hr Hcalm Hdue.
    assert (Hrest : tapless rest wa).
    { cbn [tapless] in Hcalm. rewrite Hs in Hcalm. tauto. }
    assert (Hfirst : tapless [a] w).
    { cbn [tapless] in *. rewrite Hs. split; [tauto|exact I]. }
    pose proof (step_now_mono _ _ _ Hs) as Hm1.
    pose proof (run_now_mono _ _ _ Hr) as Hm2.
    destruct (tapless_step _ _ _ Hs Hfirst)
      as [(Ht & Hl & Hto & Hc & Hlog)|[id ->]].
    + destruct (IH wa w' Hr Hrest) as (Ht' & Hl' & Hto' & Hc' & fired & Hf & Hsw).
      { intros t Hin. apply Hdue. now rewrite <- Ht. }
      repeat split; try congruence.
      destruct Hlog as [Hlog|(g & Hg & Hlog)].
      * exists fired. split; [congruence|assumption].
      * exists (call_of w g :: fired). split.
        -- rewrite Hf, Hlog, <- app_assoc. reflexivity.
        -- constructor; assumption.
    + exfalso. cbn [step] in Hs. unfold fire_timer in Hs.
      destruct (pending id w) as [t|] eqn:Hp; [|discriminate].
      destruct (due t <=? now w) eqn:Hd; [|discriminate].
      apply Z.leb_le in Hd. apply pending_In in Hp.
      specialize (Hdue t (proj1 Hp)). lia.
Qed.

(** With one timeout pending, a run in which no touch release passes the tap
    test either leaves it pending, having fired swipes at most, or has run it,
    once and not before it was due, with swipes at most around its [tap]. *)
Lemma tapless_run_single_timer (acts : list Action) :
  forall (w w' : @World ActionConfig) t,
    run acts w = Some w' -> tapless acts w ->
    one_pending w -> timers w = [t] ->
    (timers w' = timers w
     /\ _config (pad w') = _config (pad w)
     /\ exists fired,
          log w' = log w ++ fired
          /\ Forall (fun call => is_swipe (gesture call)) fired)
    \/ exists fired_at before after,
         due t <= fired_at <= now w'
         /\ log w'
            = log w ++ before
              ++ [{| at_ms := fired_at; gesture := tap;
                     dispatched :=
                       option_map hass_action (tap_action (_config (pad w))) |}]
              ++ after
         /\ Forall (fun call => is_swipe (gesture call)) before
         /\ Forall (fun call => is_swipe (gesture call)) after
         /\ timers w' = [].
Proof.
  induction acts as [|a rest IH]; cbn [run]; intros w w' t.
  - intros [= <-] _ _ _. left. repeat split. exists [].
    split; [now rewrite app_nil_r|constructor].
  - destruct (step a w) as [wa|] eqn:Hs; [|discriminate].
    intros Hr Hcalm Hone Hts.
    assert (Hrest : tapless rest wa).
    { cbn [tapless] in Hcalm. rewrite Hs in Hcalm. tauto. }
    assert (Hfirst : tapless [a] w).
    { cbn [tapless] in *. rewrite Hs. split; [tauto|exact I]. }
    destruct (tapless_step _ _ _ Hs Hfirst)
      as [(Ht & Hl & Hto & Hc & Hlog)|[id ->]].
    + assert (Hone' : one_pending wa).
      { unfold one_pending in *. now rewrite Ht, Hto. }
      assert (Hts' : timers wa = [t]) by congruence.
      assert (Hpre : exists pre,
                 log wa = log w ++ pre
                 /\ Forall (fun call => is_swipe (gesture call)) pre).
      { destruct Hlog as [Hlog|(g & Hg & Hlog)].
        - exists []. split; [now rewrite app_nil_r|constructor].
        - exists [call_of w g]. split; [exact Hlog|].
          constructor; [exact Hg|constructor]. }
      destruct Hpre as (pre & Hpre & Hsw).
      destruct (IH wa w' t Hr Hrest Hone' Hts')
        as [(Ht' & Hc' & fired & Hf & Hfs)
           |(f & before & after & Hf & Hlog' & Hb & Ha & Hnil)].
      * left. split; [congruence|]. split; [congruence|].
        exists (pre ++ fired). split.
        -- rewrite Hf, Hpre, <- app_assoc. reflexivity.
        -- apply Forall_app. now split.
      * right. exists f, (pre ++ before), after.
        split; [exact Hf|]. split.
        -- rewrite Hlog', Hpre, Hc, <- !app_assoc. reflexivity.
        -- split; [apply Forall_app; now split|]. now split.
    + cbn [step] in Hs.
      destruct (fire_timer_spec _ _ _ Hs Hone)
        as (t' & Hts' & _ & Hdue & Hnil & Hlog & _ & _ & Hnow).
      assert (t' = t) by congruence. subst t'.
      pose proof (run_now_mono rest wa w' Hr) as Hmono.
      destruct (tapless_run_before_due rest wa w' Hr Hrest)
        as (_ & _ & _ & _ & after & Hf & Ha).
      { intros x Hin. rewrite Hnil in Hin. destruct Hin. }
      right. exists (now w), [], after.
      split; [lia|]. split.
      * rewrite Hf, Hlog. cbn [app]. rewrite <- app_assoc. reflexivity.
      * split; [constructor|]. split; [exact Ha|].
        destruct (tapless_run_before_due rest wa w' Hr Hrest) as (Ht' & _).
        { intros x Hin. rewrite Hnil in Hin. destruct Hin. }
        congruence.
Qed.

(** C1 (as amended): a single tap. A qualifying touch release with no tap
    in the [tap_timeout] milliseconds before it fires nothing at release time
    and leaves exactly one timeout pending, due [tap_timeout] later. As long
    as no later touch release passes the tap test (such a release cancels the
    timeout), that timeout has either not run yet or has run once, firing one
    [tap] no earlier than [tap_timeout] after the release, and nothing but
    swipes has been fired besides; before that moment it cannot run, and from
    that moment on it can.  ([one_pending] holds in every reachable state.) *)
Theorem single_tap_is_deferred (event : PointerEvent) (w : @World ActionConfig) :
  qualifying_tap event w ->
  one_pending w ->
  (forall last, _lastTouch (pad w) = Some last ->
                tap_timeout (_config (pad w)) <= now w - last) ->
  let T := tap_timeout (_config (pad w)) in
  let w1 := _handleEnd event w in
  let the_tap fired_at :=
    {| at_ms := fired_at; gesture := tap;
       dispatched := option_map hass_action (tap_action (_config (pad w))) |} in
  let swipes l := Forall (fun call => is_swipe (gesture call)) l in
  log w1 = log w
  /\ timers w1 = [{| handle := next_handle w; due := now w + Z.max 0 T |}]
  /\ forall acts w2,
       run acts w1 = Some w2 -> tapless acts w1 ->
       ((timers w2 = timers w1
         /\ exists fired, log w2 = log w ++ fired /\ swipes fired)
        \/ exists fired_at before after,
             now w + T <= fired_at <= now w2
             /\ log w2 = log w ++ before ++ [the_tap fired_at] ++ after
             /\ swipes before /\ swipes after
             /\ timers w2 = [])
       /\ (now w2 < now w + T ->
             timers w2 = timers w1
             /\ (exists fired, log w2 = log w ++ fired /\ swipes fired)
             /\ fire_timer (next_handle w) w2 = None)
       /\ (timers w2 = timers w1 -> now w + T <= now w2 ->
             exists w3,
               fire_timer (next_handle w) w2 = Some w3
               /\ log w3 = log w2 ++ [the_tap (now w2)]
               /\ timers w3 = []).
Proof.
  intros Hq Hone Hfresh T w1 the_tap swipes.
  destruct (tap_release_fresh event w Hq Hone Hfresh)
    as (Hlog & Hts & Hl & Hc & Hn).
  fold w1 T in Hlog, Hts, Hl, Hc, Hn.
  split; [assumption|]. split; [assumption|].
  intros acts w2 Hrun Hcalm.
  assert (Hone1 : one_pending w1) by now apply handleEnd_one_pending.
  assert (Hone2 : one_pending w2) by eauto using run_one_pending.
  pose proof (run_now_mono acts w1 w2 Hrun) as Hmono.
  pose proof (tapless_run_single_timer acts w1 w2 _ Hrun Hcalm Hone1 Hts)
    as Hphase.
  cbn [due] in Hphase. rewrite Hlog, Hc in Hphase.
  assert (Hpend : timers w2 = timers w1 ->
                  pending (next_handle w) w2
                  = Some {| handle := next_handle w;
                            due := now w + Z.max 0 T |}).
  { intros Ht. unfold pending. rewrite Ht, Hts. cbn.
    now rewrite Z.eqb_refl. }
  split; [|split].
  - destruct Hphase as [(Ht & _ & Hf)|(f & before & after & Hf & Hlog2 & Hb & Ha & Hnil)].
    + left. split; assumption.
    + right. exists f, before, after. repeat split; try assumption; lia.
  - intros Hearly.
    destruct Hphase as [(Ht & _ & Hf)|(f & before & after & Hf & _)]; [|lia].
    split; [exact Ht|]. split; [exact Hf|].
    unfold fire_timer. rewrite (Hpend Ht). cbn [due].
    destruct (now w + Z.max 0 T <=? now w2) eqn:E; [|reflexivity].
    apply Z.leb_le in E. lia.
  - intros Hstill Hlate.
    destruct Hphase as [(Ht & Hc2 & _)|(f & before & after & _ & _ & _ & _ & Hnil)];
      [|rewrite Hnil, Hts in Hstill; discriminate].
    assert (Hfire : fire_timer (next_handle w) w2
                    = Some (deferred_tap
                              (clearTimeout (Some (next_handle w)) w2))).
    { unfold fire_timer. rewrite (Hpend Ht). cbn [due].
      destruct (now w + Z.max 0 T <=? now w2) eqn:E; [reflexivity|].
      apply Z.leb_gt in E. lia. }
    eexists. split; [exact Hfire|].
    destruct (fire_timer_spec _ _ _ Hfire Hone2)
      as (t & _ & _ & _ & Hnil & Hlog3 & _).
    split; [|assumption].
    rewrite Hlog3. unfold call_of, the_tap. now rewrite Hc2.
Qed.

Lemma tap_release_facts (event : PointerEvent) (w : @World ActionConfig) :
  qualifying_tap event w -> one_pending w ->
  let w1 := _handleEnd event w in
  _lastTouch (pad w1) = Some (now w)
  /\ _config (pad w1) = _config (pad w)
  /\ now w1 = now w
  /\ (forall t, In t (timers w1) ->
                now w + tap_timeout (_config (pad w)) <= due t).
Proof.
  intros Hq Hone w1.
  destruct (recent_tap (recentred w)) eqn:Hr;
    unfold recent_tap in Hr;
    cbn [recentred pad with_pad _lastTouch set_circle set_mouseDown
         _config now] in Hr.
  - destruct (_lastTouch (pad w)) as [last|] eqn:El; [|discriminate].
    apply Z.ltb_lt in Hr.
    destruct (tap_release_recent event w last Hq Hone El Hr)
      as (_ & Ht & Hl & Hc & Hn).
    fold w1 in Ht, Hl, Hc, Hn. rewrite Ht. repeat split; auto.
    intros t [].
  - assert (Hfresh : forall last, _lastTouch (pad w) = Some last ->
                       tap_timeout (_config (pad w)) <= now w - last).
    { intros last El. rewrite El in Hr. now apply Z.ltb_ge. }
    destruct (tap_release_fresh event w Hq Hone Hfresh)
      as (_ & Ht & Hl & Hc & Hn).
    fold w1 in Ht, Hl, Hc, Hn. rewrite Ht. repeat split; auto.
    intros t [<-|[]]. cbn [due]. lia.
Qed.

(** X12: swipes do not break a double tap. The tap history is untouched by
    releases that fail the tap test, so when two qualifying releases are less
    than [tap_timeout] apart, the second fires [double_tap] at once and
    cancels the deferred tap even if swipes or dead-zone releases (touch or
    mouse) happened in between; what was fired in between are swipes only. *)
Theorem double_tap_survives_swipes
  (e1 e2 : PointerEvent) (w0 w1' : @World ActionConfig) (acts : list Action) :
  one_pending w0 ->
  qualifying_tap e1 w0 ->
  run acts (_handleEnd e1 w0) = Some w1' ->
  tapless acts (_handleEnd e1 w0) ->
  qualifying_tap e2 w1' ->
  now w1' - now w0 < tap_timeout (_config (pad w0)) ->
  let w1 := _handleEnd e1 w0 in
  let w2 := _handleEnd e2 w1' in
  (exists between,
      log w1' = log w1 ++ between
      /\ Forall (fun call => is_swipe (gesture call)) between)
  /\ log w2 = log w1' ++ [call_of w1' double_tap]
  /\ timers w2 = []
  /\ forall id, fire_timer id w2 = None.
Proof.
  intros Hone Hq1 Hrun Hcalm Hq2 Hclose w1 w2.
  assert (Hone1 : one_pending w1) by now apply handleEnd_one_pending.
  assert (Hone1' : one_pending w1') by eauto using run_one_pending.
  destruct (tap_release_facts e1 w0 Hq1 Hone) as (Hl1 & Hc1 & Hn1 & Hdue).
  fold w1 in Hl1, Hc1, Hn1, Hdue.
  destruct (tapless_run_before_due acts w1 w1' Hrun Hcalm)
    as (Hts & Hlt & Hto & Hc & between & Hlog & Hsw).
  { intros t Hin. specialize (Hdue t Hin). lia. }
  assert (Hlast : _lastTouch (pad w1') = Some (now w0)) by congruence.
  assert (Hlt' : now w1' - now w0 < tap_timeout (_config (pad w1')))
    by (rewrite Hc, Hc1; assumption).
  destruct (tap_release_recent e2 w1' (now w0) Hq2 Hone1' Hlast Hlt')
    as (Hlog2 & Ht2 & _).
  fold w2 in Hlog2, Ht2.
  split; [exists between; split; assumption|].
  split; [exact Hlog2|]. split; [exact Ht2|].
  intros id. unfold fire_timer, pending. now rewrite Ht2.
Qed.

Lemma one_rapid_tap (gap : Z) (x y : Q) (w : @World ActionConfig) (last : Z) :
  listening w = true ->
  one_pending w ->
  (0 < tap_threshold (_config (pad w)))%Q ->
  _lastTouch (pad w) = Some last ->
  0 <= gap ->
  now w + gap - last < tap_timeout (_config (pad w)) ->
  exists w',
    run (rapid_taps [gap] x y) w = Some w'
    /\ log w'
       = log w ++ [{| at_ms := now w + gap; gesture := double_tap;
                      dispatched :=
                        option_map hass_action
                          (double_tap_action (_config (pad w))) |}]
    /\ timers w' = []
    /\ _lastTouch (pad w') = Some (now w')
    /\ _config (pad w') = _config (pad w)
    /\ listening w' = true
    /\ one_pending w'.
Proof.
  intros Hli Hone Hth Hlast Hgap Hclose.
  set (p := {| isTouch := true; clientX := x; clientY := y |}).
  set (wa := with_now (now w + gap) w).
  set (ws := _handleStart p wa).
  assert (Hq : qualifying_tap p ws).
  { split; [reflexivity|]. exists x, y. repeat split.
    - apply Qabs_Qlt_condition. cbn [clientX p].
      change (_config (pad ws)) with (_config (pad w)). split; lra.
    - apply Qabs_Qlt_condition. cbn [clientY p].
      change (_config (pad ws)) with (_config (pad w)). split; lra. }
  assert (Hones : one_pending ws) by exact Hone.
  destruct (tap_release_recent p ws last Hq Hones Hlast Hclose)
    as (Hlog & Hts & Hl & Hc & Hn).
  exists (_handleEnd p ws).
  split.
  - unfold rapid_taps. cbn [flat_map app run step handler].
    assert (Hg : (0 <=? gap) = true) by now apply Z.leb_le.
    rewrite Hg. fold wa. fold p.
    change (listening wa) with (listening w). rewrite Hli. fold ws.
    change (listening ws) with (listening w). now rewrite Hli.
  - split; [exact Hlog|]. split; [exact Hts|].
    split; [now rewrite Hl, Hn|]. split; [exact Hc|].
    split.
    + rewrite (tap_release _ _ Hq).
      destruct (tap_branch_frame (recentred ws)) as (_ & _ & _ & _ & _ & H & _).
      rewrite H. exact Hli.
    + unfold one_pending. now rewrite Hts.
Qed.

(** X13: a chain of rapid taps. Right after a qualifying release, any
    number of further taps, each less than [tap_timeout] after the one
    before, fires one [double_tap] per tap and nothing else, and (as soon as
    there is one) leaves no timeout pending: there is no triple tap, and the
    first tap's deferred [tap] never runs. *)
Theorem rapid_taps_chain
  (gaps : list Z) (x y : Q) (w : @World ActionConfig) :
  listening w = true ->
  one_pending w ->
  (0 < tap_threshold (_config (pad w)))%Q ->
  _lastTouch (pad w) = Some (now w) ->
  Forall (fun gap => 0 <= gap < tap_timeout (_config (pad w))) gaps ->
  exists w',
    run (rapid_taps gaps x y) w = Some w'
    /\ gestures (log w')
       = gestures (log w) ++ repeat double_tap (List.length gaps)
    /\ (gaps <> [] -> timers w' = [])
    /\ _lastTouch (pad w') = Some (now w').
Proof.
  revert w. induction gaps as [|gap rest IH]; intros w Hli Hone Hth Hlast Hgaps.
  - exists w. cbn. rewrite app_nil_r. repeat split; auto. congruence.
  - inversion Hgaps as [|? ? [Hg0 HgT] Hrest]; subst.
    destruct (one_rapid_tap gap x y w (now w) Hli Hone Hth Hlast Hg0)
      as (wa & Hrun & Hlog & Hts & Hl & Hc & Hli' & Hone'); [lia|].
    destruct (IH wa Hli' Hone') as (w' & Hrun' & Hg' & Hts' & Hl').
    { now rewrite Hc. }
    { exact Hl. }
    { now rewrite Hc. }
    exists w'. split; [|split; [|split]].
    + change (rapid_taps (gap :: rest) x y)
        with (rapid_taps [gap] x y ++ rapid_taps rest x y).
      cbn [rapid_taps flat_map app run] in Hrun |- *.
      destruct (step (Elapse gap) w) as [s1|]; [|discriminate].
      destruct (step _ s1) as [s2|]; [|discriminate].
      destruct (step _ s2) as [s3|]; [|discriminate].
      injection Hrun as ->. exact Hrun'.
    + rewrite Hg', Hlog. unfold gestures. rewrite map_app.
      cbn [map gesture List.length repeat]. now rewrite <- app_assoc.
    + intros _. destruct rest as [|g2 rest'].
      * cbn in Hrun'. injection Hrun' as <-. exact Hts.
      * apply Hts'. discriminate.
    + exact Hl'.
Qed.


(** ** What reaches the host *)

Lemma handleEnd_log_config (event : PointerEvent) (w : @World ActionConfig) :
  (log (_handleEnd event w) = log w
   \/ exists g, log (_handleEnd event w) = log w ++ [call_of w g])
  /\ _config (pad (_handleEnd event w)) = _config (pad w).
Proof.
  destruct (handleEnd_cases event w)
    as [[_ E]|[(_ & _ & E)|(_ & _ & [(g & _ & E)|E])]]; rewrite E.
  - split; [now left|reflexivity].
  - split; [|apply (tap_branch_frame (recentred w))].
    rewrite tap_branch_log. change (log (recentred w)) with (log w).
    destruct (recent_tap (recentred w)).
    + right. now exists double_tap.
    + left. apply app_nil_r.
  - rewrite fireEvent_eq. split; [right; now exists g|reflexivity].
  - split; [now left|reflexivity].
Qed.

Lemma fire_timer_log_config (id : Z) (w w' : @World ActionConfig) :
  fire_timer id w = Some w' ->
  log w' = log w ++ [call_of w tap] /\ _config (pad w') = _config (pad w).
Proof.
  unfold fire_timer. destruct (pending id w) as [t|]; [|discriminate].
  destruct (due t <=? now w); [|discriminate]. intros [= <-].
  unfold deferred_tap. rewrite fireEvent_eq.
  match goal with
  | |- context [clearTimeout ?h ?x] =>
      destruct (clearTimeout_frame h x) as (Hp & _ & Hl & _)
  end.
  rewrite Hp, Hl. split; reflexivity.
Qed.

Lemma step_faithful_log
  (c : @InternalConfig ActionConfig) (a : Action) (w w' : @World ActionConfig) :
  _config (pad w) = c -> faithful_log c (log w) ->
  step a w = Some w' ->
  _config (pad w') = c /\ faithful_log c (log w').
Proof.
  intros Hc Hf.
  assert (Hadd : forall g, faithful_log c (log w ++ [call_of w g])).
  { intros g. apply Forall_app. split; [exact Hf|].
    constructor; [|constructor]. unfold call_of. cbn. now rewrite Hc. }
  destruct a as [ms|l event|id|l| |]; cbn [step].
  - destruct (0 <=? ms); [|discriminate]. now intros [= <-].
  - destruct (listening w); intros [= <-]; [|now split].
    destruct l; cbn [handler].
    + now split.
    + destruct (handleMove_same_taps event w) as (_ & H2 & _ & _ & _ & H5).
      rewrite H2. split; [congruence|exact Hf].
    + destruct (handleEnd_log_config event w) as [[E|[g E]] Hc'];
        rewrite E; split; try congruence; auto.
  - intros Hfire. destruct (fire_timer_log_config _ _ _ Hfire) as [E Hc'].
    rewrite E. split; [congruence|auto].
  - now intros [= <-].
  - now intros [= <-].
  - now intros [= <-].
Qed.

Lemma outbound_faithful
  (c : @InternalConfig ActionConfig) (l : list (@Call ActionConfig)) :
  faithful_log c l ->
  forall ev, In ev (outbound l) ->
             exists g d, action_of c g = Some d /\ ev = hass_action d.
Proof.
  induction 1 as [|call rest Hcall Hrest IH]; cbn [outbound]; intros ev.
  - intros [].
  - rewrite Hcall.
    destruct (action_of c (gesture call)) as [d|] eqn:E; cbn [option_map].
    + intros [<-|Hin]; [now exists (gesture call), d|now apply IH].
    + apply IH.
Qed.

(** X14: only configured actions leave the component. Whatever happens to
    a pad configured with [c], every ['hass-action'] event it has dispatched
    carries the action [c] holds for one of the six gestures, wrapped as
    [{action: 'tap', config: {tap_action: ...}}]; a pad with no action
    configured never dispatches anything. *)
Theorem only_configured_actions_dispatched
  (c : @InternalConfig ActionConfig) (l : Layout) (t0 : Z)
  (acts : list Action) (w : @World ActionConfig) :
  run acts (initial c l t0) = Some w ->
  (forall ev, In ev (outbound (log w)) ->
     exists g d,
       action_of c g = Some d
       /\ ev = {| event_type := "hass-action"; bubbles := true;
                  composed := true; detail_action := "tap";
                  detail_config_tap_action := d |})
  /\ ((forall g, action_of c g = None) -> outbound (log w) = [])
  /\ _config (pad w) = c.
Proof.
  assert (Hgen : forall acts (x x' : @World ActionConfig),
             _config (pad x) = c -> faithful_log c (log x) ->
             run acts x = Some x' ->
             _config (pad x') = c /\ faithful_log c (log x')).
  { clear. induction acts as [|a rest IH]; cbn [run]; intros x x' Hc Hf.
    - now intros [= <-].
    - destruct (step a x) as [xa|] eqn:Hstep; [|discriminate].
      destruct (step_faithful_log c a x xa Hc Hf Hstep) as [Hc' Hf'].
      now apply IH. }
  intros Hrun.
  destruct (Hgen acts (initial c l t0) w eq_refl (Forall_nil _) Hrun)
    as [Hc Hf].
  split; [exact (outbound_faithful c (log w) Hf)|]. split; [|exact Hc].
  intros Hnone.
  destruct (outbound (log w)) as [|ev rest] eqn:E; [reflexivity|].
  destruct (outbound_faithful c (log w) Hf ev) as (g & d & Hg & _).
  { rewrite E. now left. }
  rewrite Hnone in Hg. discriminate.
Qed.

Lemma run_pending_is_last_tap (acts : list Action) :
  forall x x' : @World ActionConfig,
    one_pending x -> pending_is_last_tap x ->
    run acts x = Some x' -> pending_is_last_tap x'.
Proof.
  induction acts as [|a rest IH]; cbn [run]; intros x x' Hone Hp.
  - now intros [= <-].
  - destruct (step a x) as [xa|] eqn:Hstep; [|discriminate].
    apply IH; eauto using step_one_pending, step_pending_is_last_tap.
Qed.

(** X15: the timeout's callback. In every reachable state, the timeout that
    runs is the one [_timeout] names; it runs no earlier than [tap_timeout]
    after the latest qualifying release, fires exactly one [tap], leaves no
    timeout pending (the callback's own [clearTimeout] has nothing left to
    cancel) and changes no field of the component. *)
Theorem timeout_callback_fires_one_tap
  (id : Z) (w w' : @World ActionConfig) :
  reachable w ->
  fire_timer id w = Some w' ->
  _timeout (pad w) = Some id
  /\ (exists last,
        _lastTouch (pad w) = Some last
        /\ last + tap_timeout (_config (pad w)) <= now w)
  /\ w' = _fireEvent tap (with_timers [] w)
  /\ log w' = log w ++ [call_of w tap]
  /\ timers w' = []
  /\ pad w' = pad w.
Proof.
  intros Hreach Hfire.
  pose proof (reachable_one_pending w Hreach) as Hone.
  assert (Hp : pending_is_last_tap w).
  { destruct Hreach as (c & l & t0 & acts & Hrun).
    apply (run_pending_is_last_tap acts (initial c l t0) w); [exact I| |exact Hrun].
    split; [intros t []|intros last; discriminate]. }
  destruct (fire_timer_spec _ _ _ Hfire Hone)
    as (t & Hts & Hid & Hdue & Hnil & Hlog & Hpad & _).
  destruct Hp as [Hp _].
  destruct (Hp t) as (Hto & last & Hl & Hd); [rewrite Hts; now left|].
  split; [congruence|]. split; [exists last; split; [exact Hl|lia]|].
  split; [|split; [exact Hlog|split; [exact Hnil|exact Hpad]]].
  unfold fire_timer in Hfire.
  destruct (pending id w) as [t'|]; [|discriminate].
  destruct (due t' <=? now w); [|discriminate].
  injection Hfire as <-.
  unfold deferred_tap. rewrite !fireEvent_eq.
  cbn [clearTimeout with_timers with_log pad timers log].
  rewrite Hts, Hto. cbn [filter]. rewrite Hid, Z.eqb_refl. cbn [negb filter].
  reflexivity.
Qed.

End Properties.

(** * Worked examples *)

Lemma pressed_qualifies : qualifying_tap (touch 100 100) pressed.
Proof.
  split; [reflexivity|]. exists 100%Q, 100%Q.
  repeat split; vm_compute; reflexivity.
Defined.

Lemma pressed_twice_qualifies : qualifying_tap (touch 100 103) pressed_twice.
Proof.
  split; [reflexivity|]. exists 100%Q, 103%Q.
  repeat split; vm_compute; reflexivity.
Defined.

Lemma pressed_thrice_qualifies : qualifying_tap (touch 100 103) pressed_thrice.
Proof.
  split; [reflexivity|]. exists 100%Q, 103%Q.
  repeat split; vm_compute; reflexivity.
Defined.

Lemma pressed_fresh (last : Z) :
  _lastTouch (pad pressed) = Some last ->
  tap_timeout (_config (pad pressed)) <= now pressed - last.
Proof. intros H. discriminate H. Defined.

Lemma single_tap_is_deferred_witness :
  qualifying_tap (touch 100 100) pressed
  /\ one_pending pressed
  /\ exists w3,
       run [Input OnEnd (touch 100 100); Elapse 200; TimerFires 1] pressed
       = Some w3
       /\ log w3 = [{| at_ms := 200; gesture := tap;
                       dispatched := Some (hass_action "toggle"%string) |}]
       /\ timers w3 = [].
Proof.
  pose proof (single_tap_is_deferred (touch 100 100) pressed
                pressed_qualifies I pressed_fresh) as (_ & _ & Hlater).
  destruct (Hlater [Elapse 200]
                   (with_now 200 (_handleEnd (touch 100 100) pressed))
                   ltac:(vm_compute; reflexivity) ltac:(repeat constructor))
    as (_ & _ & Hfire).
  destruct (Hfire ltac:(vm_compute; reflexivity)
                  ltac:(vm_compute; discriminate))
    as (w3 & Hf & Hlog & Hnil).
  split; [exact pressed_qualifies|]. split; [exact I|].
  exists w3. split; [exact Hf|]. split; [exact Hlog | exact Hnil].
Defined.

Lemma double_tap_cancels_deferred_tap_witness :
  let w2 := _handleEnd (touch 100 103) pressed_twice in
  qualifying_tap (touch 100 100) pressed
  /\ qualifying_tap (touch 100 103) pressed_twice
  /\ now pressed_twice - now pressed < tap_timeout (_config (pad pressed))
  /\ log w2
     = log (_handleEnd (touch 100 100) pressed)
       ++ [call_of pressed_twice double_tap]
  /\ timers w2 = []
  /\ forall id, fire_timer id w2 = None.
Proof.
  intros w2.
  assert (Hclose : now pressed_twice - now pressed
                   < tap_timeout (_config (pad pressed)))
    by (vm_compute; reflexivity).
  pose proof (proj2 double_tap_cancels_deferred_tap
                (touch 100 100) (touch 100 103) pressed pressed_twice
                [Elapse 50; Input OnStart (touch 100 103)]
                I pressed_qualifies
                ltac:(vm_compute; reflexivity) ltac:(repeat constructor)
                pressed_twice_qualifies Hclose)
    as (_ & _ & Hlog & Hnil & Hnone).
  split; [exact pressed_qualifies|]. split; [exact pressed_twice_qualifies|].
  split; [exact Hclose|]. split; [exact Hlog|]. split; [exact Hnil|exact Hnone].
Defined.

Lemma lastTouch_always_updated_witness :
  let w3 := _handleEnd (touch 100 103) pressed_thrice in
  _lastTouch (pad (_handleEnd (touch 100 100) pressed)) = Some (now pressed)
  /\ _lastTouch (pad (_handleEnd (touch 100 103) pressed_twice))
     = Some (now pressed_twice)
  /\ gestures (log w3) = gestures (log pressed) ++ [double_tap; double_tap]
  /\ timers w3 = [].
Proof.
  intros w3.
  destruct (@lastTouch_always_updated string) as [Hevery Hthree].
  pose proof (Hevery _ _ pressed_qualifies) as H1.
  pose proof (Hevery _ _ pressed_twice_qualifies) as H2.
  pose proof (Hthree (touch 100 100) (touch 100 103) (touch 100 103)
                pressed pressed_twice pressed_thrice
                [Elapse 50; Input OnStart (touch 100 103)]
                [Elapse 50; Input OnStart (touch 100 103)]
                I pressed_fresh pressed_qualifies
                ltac:(vm_compute; reflexivity) ltac:(repeat constructor)
                pressed_twice_qualifies
                ltac:(vm_compute; reflexivity)
                ltac:(vm_compute; reflexivity) ltac:(repeat constructor)
                pressed_thrice_qualifies
                ltac:(vm_compute; reflexivity)) as (_ & Hg & Hnil).
  split; [exact H1|]. split; [exact H2|]. split; [exact Hg | exact Hnil].
Defined.

(** Settles a closed comparison of rationals by evaluating it. *)
Ltac evaluate :=
  vm_compute; first [reflexivity | discriminate | intro; discriminate].

Ltac outside_tap_region :=
  let H := fresh in intros [H _]; vm_compute in H; discriminate.

Lemma swipe_direction_witness :
  let dX := Qabs (160 - 100) in
  let dY := Qabs (110 - 100) in
  (dX > dY /\ dX > swipe_threshold demo_config)%Q
  /\ log (_handleEnd (touch 160 110) pressed) = log pressed ++ [call_of pressed right]
  /\ log (_handleEnd (touch 40 110) pressed) = log pressed ++ [call_of pressed left]
  /\ log (_handleEnd (touch 110 160) pressed) = log pressed ++ [call_of pressed down]
  /\ log (_handleEnd (touch 110 40) pressed) = log pressed ++ [call_of pressed up].
Proof.
  intros dX dY.
  split; [split; evaluate|].
  split; [|split; [|split]].
  - destruct (swipe_direction (touch 160 110) pressed 100 100
                              eq_refl eq_refl eq_refl) as (Hh & _ & _).
    destruct Hh as [Hr _]; [outside_tap_region | evaluate | evaluate |].
    apply Hr. evaluate.
  - destruct (swipe_direction (touch 40 110) pressed 100 100
                              eq_refl eq_refl eq_refl) as (Hh & _ & _).
    destruct Hh as [_ Hl]; [outside_tap_region | evaluate | evaluate |].
    apply Hl. evaluate.
  - destruct (swipe_direction (touch 110 160) pressed 100 100
                              eq_refl eq_refl eq_refl) as (_ & Hv & _).
    destruct Hv as [Hd _]; [outside_tap_region | evaluate | evaluate |].
    apply Hd. evaluate.
  - destruct (swipe_direction (touch 110 40) pressed 100 100
                              eq_refl eq_refl eq_refl) as (_ & Hv & _).
    destruct Hv as [_ Hu]; [outside_tap_region | evaluate | evaluate |].
    apply Hu. evaluate.
Defined.

Lemma dead_zone_emits_nothing_witness :
  (Qabs (160 - 100) == Qabs (160 - 100))%Q
  /\ log (_handleEnd (touch 160 160) pressed) = log pressed
  /\ timers (_handleEnd (touch 160 160) pressed) = timers pressed
  /\ log (_handleEnd (touch 120 110) pressed) = log pressed.
Proof.
  destruct (dead_zone_emits_nothing (touch 160 160) pressed 100 100
              eq_refl eq_refl) as (_ & Htie & _).
  { left. evaluate. }
  destruct (dead_zone_emits_nothing (touch 120 110) pressed 100 100
              eq_refl eq_refl) as (_ & _ & Hshort).
  { left. evaluate. }
  destruct (Htie (Qeq_refl _)) as [Hlog Hts].
  destruct Hshort as [Hlog' _]; [evaluate | evaluate |].
  split; [apply Qeq_refl|]. split; [exact Hlog|]. split; [exact Hts|exact Hlog'].
Defined.

Lemma cursor_offset_clamped_witness :
  exists l t,
    style_left (_circle (pad (_handleMove (touch 1000 90) pressed)))
    = InsetCalc (Some l)
    /\ style_top (_circle (pad (_handleMove (touch 1000 90) pressed)))
       = InsetCalc (Some t)
    /\ (l == 130)%Q /\ (t == -10)%Q
    /\ log (_handleEnd (touch 1000 90) (_handleMove (touch 1000 90) pressed))
       = log (_handleEnd (touch 1000 90) pressed).
Proof.
  destruct (cursor_offset_clamped (touch 1000 90) pressed 100 100
              (or_introl eq_refl) eq_refl eq_refl)
    as ((l & t & Hl & Ht & Hcl & Hct) & _ & _ & Hrel).
  exists l, t. split; [exact Hl|]. split; [exact Ht|].
  split; [|split].
  - destruct Hcl as [Hpos _].
    destruct Hpos as (_ & _ & _ & Hhi); [evaluate|].
    rewrite Hhi; evaluate.
  - destruct Hct as [Hpos _].
    destruct Hpos as (_ & _ & Hmid & _); [evaluate|].
    rewrite Hmid; [evaluate|]. split; evaluate.
  - apply (Hrel (touch 1000 90)).
Defined.

Lemma mouse_release_only_clears_flag_witness :
  let w := _handleMove (mouse 130 100) (_handleStart (mouse 100 100) pressed) in
  _mouseDown (pad w) = Some true
  /\ _mouseDown (pad (_handleEnd (mouse 130 100) w)) = Some false
  /\ log (_handleEnd (mouse 130 100) w) = log w
  /\ _circle (pad (_handleEnd (mouse 130 100) w)) = _circle (pad w).
Proof.
  intros w.
  destruct (mouse_release_only_clears_flag (mouse 130 100) w eq_refl)
    as (_ & Hflag & Hlog & _ & Hstyle & _).
  split; [reflexivity|]. split; [exact Hflag|]. split; [exact Hlog|exact Hstyle].
Defined.

(** A timer that is still pending when the element is disconnected. *)
Lemma teardown_only_unregisters_witness :
  let w := _handleEnd (touch 100 100) pressed in
  timers (disconnectedCallback w) = timers w
  /\ listening (disconnectedCallback w) = false
  /\ exists w2,
       fire_timer 1 (with_now 200 w) = Some w2
       /\ fire_timer 1 (disconnectedCallback (with_now 200 w))
          = Some (disconnectedCallback w2).
Proof.
  intros w.
  destruct (teardown_only_unregisters w) as (Hts & _ & _ & _ & Hl & _).
  destruct (teardown_only_unregisters (with_now 200 w))
    as (_ & _ & _ & _ & _ & _ & _ & Hlater).
  split; [exact Hts|]. split; [exact Hl|].
  eexists. split; [vm_compute; reflexivity|].
  apply Hlater; vm_compute; reflexivity.
Defined.

(** ** Where the code departs from the specification *)

(** C5, as stated, fails when the cursor is larger than the pad (say
    [cursor_size: 400px] in a 300 px card): the half-difference is negative,
    the interval is empty, and the offset is set to 50, outside it. *)
Lemma cursor_offset_escapes_bounds :
  let w := with_layout oversized_cursor pressed in
  let W := offsetWidth (layout w) in
  let w_cursor := circle_offsetWidth (layout w) in
  let bound := (inject_Z (W - w_cursor) / 2)%Q in
  run [Connect; Input OnStart (touch 100 100); Relayout oversized_cursor]
      (initial demo_config demo_layout 0) = Some w
  /\ exists l,
       style_left (_circle (pad (_handleMove (touch 100 100) w)))
       = InsetCalc (Some l)
       /\ (l == 50)%Q
       /\ ~ (- bound <= l <= bound)%Q.
Proof.
  intros w W w_cursor bound.
  split; [vm_compute; reflexivity|].
  eexists. split; [vm_compute; reflexivity|].
  split; [evaluate|].
  intros [_ H]. vm_compute in H. apply H. reflexivity.
Defined.

(** C8, as stated, fails: a tap deferred just before the element is
    disconnected is still fired, 200 ms later, by the disconnected element. *)
Lemma teardown_keeps_deferred_tap :
  exists w w',
    run [Connect; Input OnStart (touch 100 100); Input OnEnd (touch 100 100)]
        (initial demo_config demo_layout 0) = Some w
    /\ timers (disconnectedCallback w) = [{| handle := 1; due := 200 |}]
    /\ run [Disconnect; Elapse 200; TimerFires 1] w = Some w'
    /\ listening w' = false
    /\ log w' = [{| at_ms := 200; gesture := tap;
                    dispatched := Some (hass_action "toggle"%string) |}].
Proof.
  do 2 eexists.
  split; [vm_compute; reflexivity|].
  split; [vm_compute; reflexivity|].
  split; [vm_compute; reflexivity|].
  split; vm_compute; reflexivity.
Defined.

(** C1, as stated, fails: two taps, 250 ms apart, each with no tap in the
    200 ms before it. The first tap's timeout is due at 200 but has not run
    when the second tap arrives; the second release cancels it and sets its
    own. Handle 1 can no longer run, and the two taps yield one [tap]. *)
Lemma slow_second_tap_cancels_first :
  exists w1 late w2 w3,
    run [Connect; Input OnStart (touch 100 100); Input OnEnd (touch 100 100)]
        (initial demo_config demo_layout 0) = Some w1
    /\ log w1 = [] /\ timers w1 = [{| handle := 1; due := 200 |}]
    /\ run [Elapse 250; Input OnStart (touch 100 100)] w1 = Some late
    /\ qualifying_tap (touch 100 100) late
    /\ _lastTouch (pad late) = Some 0 /\ now late = 250
    /\ tap_timeout (_config (pad late)) = 200
    /\ step (Input OnEnd (touch 100 100)) late = Some w2
    /\ log w2 = [] /\ timers w2 = [{| handle := 2; due := 450 |}]
    /\ fire_timer 1 w2 = None
    /\ run [Elapse 200; TimerFires 2] w2 = Some w3
    /\ gestures (log w3) = [tap] /\ timers w3 = [].
Proof.
  do 4 eexists.
  split; [vm_compute; reflexivity|].
  split; [vm_compute; reflexivity|]. split; [vm_compute; reflexivity|].
  split; [vm_compute; reflexivity|].
  split.
  { split; [reflexivity|]. exists 100%Q, 100%Q.
    repeat split; vm_compute; reflexivity. }
  split; [reflexivity|]. split; [reflexivity|]. split; [reflexivity|].
  split; [vm_compute; reflexivity|].
  split; [vm_compute; reflexivity|]. split; [vm_compute; reflexivity|].
  split; [vm_compute; reflexivity|].
  split; [vm_compute; reflexivity|].
  split; vm_compute; reflexivity.
Defined.

(** C2 is broken on the mouse path, by the slip behind C6: two mouse clicks
    50 ms apart, each within the tap region, fire nothing and schedule
    nothing, where two touch taps fire [double_tap]. *)
Lemma mouse_double_click_fires_nothing :
  exists w,
    run [Connect;
         Input OnStart (mouse 100 100); Input OnEnd (mouse 100 100);
         Elapse 50;
         Input OnStart (mouse 100 103); Input OnEnd (mouse 100 103);
         Elapse 500]
        (initial demo_config demo_layout 0) = Some w
    /\ log w = [] /\ timers w = [] /\ _lastTouch (pad w) = None
    /\ forall id, fire_timer id w = None.
Proof.
  eexists. split; [vm_compute; reflexivity|].
  split; [reflexivity|]. split; [reflexivity|]. split; [reflexivity|].
  intros id. reflexivity.
Defined.

(** C3 is broken on the mouse path, by the slip behind C6: a mouse release
    60 px to the right and 10 px down of the press fires nothing, where the
    same touch release fires [right]. *)
Lemma mouse_swipe_fires_nothing :
  (Qabs (160 - 100) > Qabs (110 - 100))%Q
  /\ (Qabs (160 - 100) > swipe_threshold demo_config)%Q
  /\ (exists w,
        run [Connect; Input OnStart (mouse 100 100);
             Input OnEnd (mouse 160 110)]
            (initial demo_config demo_layout 0) = Some w
        /\ log w = [] /\ timers w = [])
  /\ (exists w,
        run [Connect; Input OnStart (touch 100 100);
             Input OnEnd (touch 160 110)]
            (initial demo_config demo_layout 0) = Some w
        /\ gestures (log w) = [right]).
Proof.
  split; [evaluate|]. split; [evaluate|]. split.
  - eexists. split; [vm_compute; reflexivity|]. split; reflexivity.
  - eexists. split; [vm_compute; reflexivity|]. reflexivity.
Defined.

(** C6 is broken on the mouse path: after mouse down at (100, 100), a drag to
    (130, 100) and mouse up there, the cursor still sits 30 px off centre
    with its transition switched off, and nothing was fired. A touch release
    at the same place does recentre it ([touch_release_recentres]). *)
Lemma mouse_release_leaves_cursor_displaced :
  exists w,
    run [Connect; Input OnStart (mouse 100 100); Input OnMove (mouse 130 100);
         Input OnEnd (mouse 130 100)]
        (initial demo_config demo_layout 0) = Some w
    /\ _circle (pad w)
       = {| transition := TransitionNone;
            style_left := InsetCalc (Some 30%Q);
            style_top := InsetCalc (Some 0%Q) |}
    /\ _mouseDown (pad w) = Some false
    /\ log w = [].
Proof.
  eexists. split; [vm_compute; reflexivity|].
  split; [vm_compute; reflexivity|]. split; reflexivity.
Defined.

(** ** Examples for the further properties *)

Lemma mouse_move_needs_mouse_press_witness :
  isTouch (mouse 130 100) = false
  /\ _handleMove (mouse 130 100) pressed = pressed
  /\ _handleMove (mouse 130 100) tapped_once = tapped_once.
Proof.
  destruct (mouse_move_needs_mouse_press (mouse 130 100) pressed eq_refl)
    as (Hskip & _ & _ & Hrel & _).
  split; [reflexivity|]. split.
  - apply Hskip. discriminate.
  - exact (Hrel (touch 100 100)).
Defined.

Lemma release_without_origin_is_silent_witness :
  _startX (pad connected) = None
  /\ log (_handleEnd (touch 100 100) connected) = log connected
  /\ timers (_handleEnd (touch 100 100) connected) = timers connected.
Proof.
  destruct (release_without_origin_is_silent (touch 100 100) connected
              (or_introl eq_refl)) as (Hlog & Hts & _).
  split; [reflexivity|]. split; [exact Hlog|exact Hts].
Defined.

Lemma nonpositive_tap_threshold_disables_taps_witness :
  (tap_threshold swipes_only_config <= 0)%Q
  /\ exists w,
       run [Connect; Input OnStart (touch 100 100);
            Input OnEnd (touch 100 100); Elapse 500;
            Input OnStart (touch 100 100); Input OnEnd (touch 160 100)]
           (initial swipes_only_config demo_layout 0) = Some w
       /\ timers w = []
       /\ _lastTouch (pad w) = None
       /\ Forall (fun call => is_swipe (gesture call)) (log w).
Proof.
  assert (Hth : (tap_threshold swipes_only_config <= 0)%Q) by evaluate.
  split; [exact Hth|].
  eexists. split; [vm_compute; reflexivity|].
  apply (nonpositive_tap_threshold_disables_taps
           swipes_only_config demo_layout 0
           [Connect; Input OnStart (touch 100 100);
            Input OnEnd (touch 100 100); Elapse 500;
            Input OnStart (touch 100 100); Input OnEnd (touch 160 100)]
           _ Hth).
  vm_compute. reflexivity.
Defined.

Lemma swipe_when_thresholds_ordered_witness :
  (tap_threshold (_config (pad pressed))
   <= swipe_threshold (_config (pad pressed)))%Q
  /\ log (_handleEnd (touch 160 110) pressed)
     = log pressed ++ [call_of pressed right]
  /\ log (_handleEnd (touch 110 40) pressed)
     = log pressed ++ [call_of pressed up].
Proof.
  assert (Hord : (tap_threshold (_config (pad pressed))
                  <= swipe_threshold (_config (pad pressed)))%Q) by evaluate.
  split; [exact Hord|]. split.
  - destruct (swipe_when_thresholds_ordered (touch 160 110) pressed 100 100
                eq_refl eq_refl eq_refl Hord) as [Hh _].
    destruct Hh as [Hr _]; [evaluate|evaluate|]. apply Hr. evaluate.
  - destruct (swipe_when_thresholds_ordered (touch 110 40) pressed 100 100
                eq_refl eq_refl eq_refl Hord) as [_ Hv].
    destruct Hv as [_ Hu]; [evaluate|evaluate|]. apply Hu. evaluate.
Defined.

Lemma default_thresholds_swipe_witness :
  _config (pad pressed) = setConfig demo_user_config
  /\ log (_handleEnd (touch 160 110) pressed)
     = log pressed
       ++ [{| at_ms := now pressed; gesture := right;
              dispatched := option_map hass_action (Some "next"%string) |}]
  /\ log (_handleEnd (touch 40 110) pressed)
     = log pressed
       ++ [{| at_ms := now pressed; gesture := left; dispatched := None |}].
Proof.
  split; [reflexivity|]. split.
  - destruct (default_thresholds_swipe demo_user_config (touch 160 110)
                pressed 100 100 eq_refl eq_refl eq_refl eq_refl eq_refl eq_refl)
      as [Hh _].
    destruct Hh as [Hr _]; [evaluate|evaluate|]. apply Hr. evaluate.
  - destruct (default_thresholds_swipe demo_user_config (touch 40 110)
                pressed 100 100 eq_refl eq_refl eq_refl eq_refl eq_refl eq_refl)
      as [Hh _].
    destruct Hh as [_ Hl]; [evaluate|evaluate|]. apply Hl. evaluate.
Defined.

Lemma tapped_once_reachable : reachable tapped_once.
Proof.
  exists demo_config, demo_layout, 0,
    [Connect; Input OnStart (touch 100 100); Input OnEnd (touch 100 100)].
  vm_compute. reflexivity.
Defined.

Lemma pending_tap_is_the_last_one_witness :
  reachable tapped_once
  /\ timers tapped_once = [{| handle := 1; due := 200 |}]
  /\ (forall t, In t (timers tapped_once) ->
        _timeout (pad tapped_once) = Some (handle t)
        /\ exists last,
             _lastTouch (pad tapped_once) = Some last
             /\ due t = last + Z.max 0 (tap_timeout (_config (pad tapped_once)))).
Proof.
  split; [exact tapped_once_reachable|]. split; [reflexivity|].
  exact (proj1 (pending_tap_is_the_last_one tapped_once tapped_once_reachable)).
Defined.

Lemma connected_fresh (last : Z) :
  _lastTouch (pad connected) = Some last ->
  tap_timeout (_config (pad connected)) <= now connected - last.
Proof. intros H. discriminate H. Defined.

Lemma tap_end_to_end_witness :
  listening connected = true
  /\ (0 < tap_threshold (_config (pad connected)))%Q
  /\ exists w',
       run [Input OnStart (touch 100 100); Input OnEnd (touch 100 100);
            Elapse 200; TimerFires 1] connected = Some w'
       /\ log w' = [{| at_ms := 200; gesture := tap;
                       dispatched := Some (hass_action "toggle"%string) |}]
       /\ timers w' = [].
Proof.
  assert (Hth : (0 < tap_threshold (_config (pad connected)))%Q) by evaluate.
  destruct (tap_end_to_end 100 100 connected eq_refl I Hth connected_fresh)
    as (w' & Hrun & Hlog & Hts & _).
  split; [reflexivity|]. split; [exact Hth|].
  exists w'. split; [exact Hrun|]. split; [exact Hlog|exact Hts].
Defined.

Lemma cursor_offset_bounded_monotone_witness :
  let w := with_layout oversized_cursor pressed in
  exists l1 l2,
    style_left (_circle (pad (_handleMove (touch 100 100) w)))
    = InsetCalc (Some l1)
    /\ style_left (_circle (pad (_handleMove (touch 900 100) w)))
       = InsetCalc (Some l2)
    /\ (Qabs l1 <= 50)%Q /\ (l1 <= l2)%Q.
Proof.
  intros w.
  destruct (cursor_offset_bounded_monotone (touch 100 100) (touch 900 100) w
              100 100 (or_introl eq_refl) (or_introl eq_refl) eq_refl eq_refl)
    as (l1 & t1 & l2 & t2 & H1 & H2 & Hb & _ & Hmono & _).
  exists l1, l2.
  split; [now rewrite H1|]. split; [now rewrite H2|].
  split.
  - eapply Qle_trans; [exact Hb|]. evaluate.
  - apply Hmono. evaluate.
Defined.

Lemma double_tap_survives_swipes_witness :
  run swipe_between_taps (_handleEnd (touch 100 100) pressed)
  = Some pressed_after_swipe
  /\ gestures (log pressed_after_swipe) = [right]
  /\ log (_handleEnd (touch 100 103) pressed_after_swipe)
     = log pressed_after_swipe ++ [call_of pressed_after_swipe double_tap]
  /\ timers (_handleEnd (touch 100 103) pressed_after_swipe) = [].
Proof.
  assert (Hrun : run swipe_between_taps (_handleEnd (touch 100 100) pressed)
                 = Some pressed_after_swipe) by (vm_compute; reflexivity).
  assert (Hq2 : qualifying_tap (touch 100 103) pressed_after_swipe).
  { split; [reflexivity|]. exists 100%Q, 103%Q.
    repeat split; vm_compute; reflexivity. }
  assert (Hcalm : tapless swipe_between_taps (_handleEnd (touch 100 100) pressed)).
  { vm_compute. repeat split; intros; reflexivity. }
  destruct (double_tap_survives_swipes (touch 100 100) (touch 100 103)
              pressed pressed_after_swipe swipe_between_taps
              I pressed_qualifies Hrun Hcalm Hq2
              ltac:(vm_compute; reflexivity))
    as (_ & Hlog & Hts & _).
  split; [exact Hrun|]. split; [reflexivity|].
  split; [exact Hlog|exact Hts].
Defined.

Lemma rapid_taps_chain_witness :
  _lastTouch (pad tapped_once) = Some (now tapped_once)
  /\ exists w',
       run (rapid_taps [50; 50; 50] 100 103) tapped_once = Some w'
       /\ gestures (log w') = [double_tap; double_tap; double_tap]
       /\ timers w' = [].
Proof.
  split; [reflexivity|].
  destruct (rapid_taps_chain [50; 50; 50] 100 103 tapped_once
              eq_refl ltac:(vm_compute; reflexivity) ltac:(evaluate) eq_refl)
    as (w' & Hrun & Hg & Hts & _).
  { repeat constructor; vm_compute; congruence. }
  exists w'. split; [exact Hrun|]. split; [exact Hg|].
  apply Hts. discriminate.
Defined.

Lemma only_configured_actions_dispatched_witness :
  exists w,
    run [Connect; Input OnStart (touch 100 100); Input OnEnd (touch 40 100);
         Input OnStart (touch 100 100); Input OnEnd (touch 160 100)]
        (initial demo_config demo_layout 0) = Some w
    /\ gestures (log w) = [left; right]
    /\ outbound (log w) = [hass_action "next"%string]
    /\ forall ev, In ev (outbound (log w)) ->
         exists g d, action_of demo_config g = Some d /\ ev = hass_action d.
Proof.
  eexists. split; [vm_compute; reflexivity|].
  split; [reflexivity|]. split; [reflexivity|].
  apply (only_configured_actions_dispatched demo_config demo_layout 0
           [Connect; Input OnStart (touch 100 100); Input OnEnd (touch 40 100);
            Input OnStart (touch 100 100); Input OnEnd (touch 160 100)]).
  vm_compute. reflexivity.
Defined.

Lemma timeout_callback_fires_one_tap_witness :
  reachable (with_now 200 tapped_once)
  /\ exists w',
       fire_timer 1 (with_now 200 tapped_once) = Some w'
       /\ log w' = log tapped_once ++ [call_of (with_now 200 tapped_once) tap]
       /\ timers w' = [].
Proof.
  assert (Hreach : reachable (with_now 200 tapped_once)).
  { exists demo_config, demo_layout, 0,
      [Connect; Input OnStart (touch 100 100); Input OnEnd (touch 100 100);
       Elapse 200].
    vm_compute. reflexivity. }
  split; [exact Hreach|].
  eexists. split; [vm_compute; reflexivity|].
  destruct (timeout_callback_fires_one_tap 1 (with_now 200 tapped_once) _
              Hreach ltac:(vm_compute; reflexivity))
    as (_ & _ & _ & Hlog & Hts & _).
  split; [exact Hlog|exact Hts].
Defined.
